(** * Extra Library (extra.h): [xtr::multiarray] and [xtr::enumerate]

    A shallow embedding of the C++ part of [include/extra.h].

    The header is template code, so it is embedded on two levels:

    - [Meta]: what the templates compute at compile time.  C++ types are
      terms of [cpp_type]; the [<type_traits>] helpers the header uses are
      functions on them; a class template is a function from its template
      arguments to the declarations of the instantiated class, or to the
      diagnostics of the [static_assert]s that reject the instantiation.

    - [xtr]: what the instantiated code does at run time.  Objects are
      records, member functions take the object as their first argument and
      return its new state, and the operations of the wrapped iterable and
      of the index type (which the header only requires, and does not
      define) are type classes. *)

From stdpp Require Import gmap strings list fin_maps.
From Stdlib Require Import ZArith Lia.

Set Default Proof Using "Type".
#[local] Set Warnings "-register-all".

(** ** Compile time *)

Module Meta.

(** C++ types, as far as the header inspects them. *)
Inductive cpp_type : Type :=
  | integer (is_signed : bool) (bits : N)
      (* the integer types: [unsigned char] is [integer false 8] *)
  | named (name : string)
      (* any other non-class object type, or a class without [size_type] *)
  | class_ (name : string) (size_type : option cpp_type)
      (* a class type and its member typedef [size_type], when it has one *)
  | array (elem : cpp_type) (extent : N)
      (* [std::array<elem, extent>] *)
  | tuple (elems : list cpp_type)
      (* [std::tuple<elems...>] *)
  | const (t : cpp_type)
  | lref (t : cpp_type)
      (* [t &] *)
  | rref (t : cpp_type)
      (* [t &&] *)
  | class_enumerator_base (Iterable : cpp_type)
      (* the header's own [xtr::detail::enumerator_base<Iterable>] *)
  | class_enumerator (Iterable Index : cpp_type).
      (* the header's own [xtr::detail::enumerator<Iterable, Index>] *)

(** [std::size_t], on the LP64 and LLP64 data models. *)
Definition size_t : cpp_type := integer false 64.

(** *** <type_traits> *)

Definition is_lvalue_reference_v (t : cpp_type) : bool :=
  match t with lref _ => true | _ => false end.

Definition is_rvalue_reference_v (t : cpp_type) : bool :=
  match t with rref _ => true | _ => false end.

Definition is_reference_v (t : cpp_type) : bool :=
  is_lvalue_reference_v t || is_rvalue_reference_v t.

Definition negation_v (b : bool) : bool := negb b.

Definition conditional_t (b : bool) (t f : cpp_type) : cpp_type :=
  if b then t else f.

Definition remove_reference_t (t : cpp_type) : cpp_type :=
  match t with
  | lref u | rref u => u
  | _ => t
  end.

(** Reference collapsing: [T& &&] is [T&], [T&& &&] is [T&&]. *)
Definition add_rvalue_reference_t (t : cpp_type) : cpp_type :=
  match t with
  | lref _ | rref _ => t
  | _ => rref t
  end.

(** Reference collapsing: [T& &] and [T&& &] are [T&]. *)
Definition add_lvalue_reference_t (t : cpp_type) : cpp_type :=
  match t with
  | lref u | rref u => lref u
  | _ => lref t
  end.

(** [const] does not apply to a reference, and is idempotent. *)
Definition add_const_t (t : cpp_type) : cpp_type :=
  match t with
  | lref _ | rref _ | const _ => t
  | _ => const t
  end.

Definition remove_const_t (t : cpp_type) : cpp_type :=
  match t with
  | const u => u
  | _ => t
  end.

Definition is_const_v (t : cpp_type) : bool :=
  match t with
  | const _ => true
  | _ => false
  end.

(** [typename t::size_type]: [None] is a substitution failure. *)
Fixpoint member_size_type (t : cpp_type) : option cpp_type :=
  match t with
  | class_ _ st => st
  | array _ _ => Some size_t
  | const u => member_size_type u
  | _ => None
  end.

(** What overload resolution and [decltype] give for the expressions of the
    wrapped iterable that the header names but does not define. *)
Class Decltype : Type := {
  (* the type of [begin(e)] for an expression [e] of type [t] *)
  decltype_begin : cpp_type → cpp_type;
  (* the type of [end(e)] for an expression [e] of type [t] *)
  decltype_end : cpp_type → cpp_type;
  (* the type of dereferencing an expression of type [t] *)
  decltype_deref : cpp_type → cpp_type;
}.

(** *** Instantiation *)

(** The outcome of instantiating a class template: its declarations, or the
    messages of the static assertions that failed. *)
Inductive instantiation (A : Type) : Type :=
  | Instantiated (decls : A)
  | Rejected (diagnostics : list string).
Global Arguments Instantiated {A} decls.
Global Arguments Rejected {A} diagnostics.

(** [static_assert(cond, msg)] *)
Definition static_assert (cond : bool) (msg : string) : list string :=
  if cond then [] else [msg].

(** A class with a base class: the base is instantiated first, then the
    assertions of the class itself are checked. *)
Definition derive {A B : Type} (base : instantiation A)
    (asserts : list string) (decls : A → B) : instantiation B :=
  match base, asserts with
  | Instantiated b, [] => Instantiated (decls b)
  | Instantiated _, d => Rejected d
  | Rejected d, d' => Rejected (d ++ d')
  end.



(** *** xtr::multiarray (lines 203-217) *)

(** [multiarray_base<Type, I, J...>::type] *)
Fixpoint multiarray_base (Type_ : cpp_type) (I : N) (J : list N) : cpp_type :=
  match J with
  | [] => array Type_ I
  | I' :: J' =>
      let nested := multiarray_base Type_ I' J' in
      array nested I
  end.

Definition multiarray (Type_ : cpp_type) (I : N) (J : list N) : cpp_type :=
  multiarray_base Type_ I J.

(** The extents of a nest of [std::array]s, outermost first. *)
Fixpoint extents (t : cpp_type) : list N :=
  match t with
  | array elem n => n :: extents elem
  | _ => []
  end.

(** *** xtr::detail (lines 231-446) *)

Definition get_stored_t (T : cpp_type) : cpp_type :=
  conditional_t (is_rvalue_reference_v T) (remove_reference_t T) T.

Record enumerator_base_decls : Type := {
  eb_iterable_type : cpp_type;
  eb_m_iterable : cpp_type;   (* the declared type of [m_iterable] *)
}.

Definition enumerator_base (Iterable : cpp_type)
    : instantiation enumerator_base_decls :=
  let iterable_type := Iterable in
  derive (Instantiated ())
    (static_assert (is_reference_v iterable_type)
       "iterable_type must be a reference")
    (λ _, {| eb_iterable_type := iterable_type;
             eb_m_iterable := get_stored_t iterable_type |}).

Record enumerator_decls : Type := {
  e_base : enumerator_base_decls;
  e_iterable_type : cpp_type;
  e_index_type : cpp_type;
}.

Definition enumerator (Iterable Index : cpp_type)
    : instantiation enumerator_decls :=
  let index_type := Index in
  derive (enumerator_base Iterable)
    (static_assert (negation_v (is_reference_v index_type))
       "index_type must not be a reference")
    (λ base, {| e_base := base;
                e_iterable_type := eb_iterable_type base;
                e_index_type := index_type |}).

Record indexed_iterator_base_decls : Type := {
  ib_iterator_type : cpp_type;
  ib_m_iterator : cpp_type;   (* the declared type of [m_iterator] *)
}.

Definition indexed_iterator_base (Iterator : cpp_type)
    : instantiation indexed_iterator_base_decls :=
  let iterator_type := Iterator in
  derive (Instantiated ())
    (static_assert (is_reference_v iterator_type)
       "iterator_type must be a reference")
    (λ _, {| ib_iterator_type := iterator_type;
             ib_m_iterator := get_stored_t iterator_type |}).

Record indexed_iterator_decls : Type := {
  i_base : indexed_iterator_base_decls;
  i_iterator_type : cpp_type;
  i_index_type : cpp_type;
  i_m_index : cpp_type;       (* the declared type of [m_index] *)
  i_dereference_result_type : cpp_type;
}.

Definition indexed_iterator `{Decltype} (Iterator Index : cpp_type)
    : instantiation indexed_iterator_decls :=
  let index_type := Index in
  derive (indexed_iterator_base Iterator)
    (static_assert (negation_v (is_reference_v index_type))
       "index_type must not be a reference")
    (λ base,
       let iterator_type := ib_iterator_type base in
       {| i_base := base;
          i_iterator_type := iterator_type;
          i_index_type := index_type;
          i_m_index := index_type;
          i_dereference_result_type :=
            tuple [add_const_t index_type;
                   decltype_deref (add_lvalue_reference_t iterator_type)] |}).

Definition begin_result_type `{Decltype} (Iterable Index : cpp_type)
    : instantiation indexed_iterator_decls :=
  indexed_iterator
    (add_rvalue_reference_t
       (decltype_begin (add_lvalue_reference_t Iterable)))
    Index.

Definition end_result_type `{Decltype} (Iterable : cpp_type) : cpp_type :=
  decltype_end (add_lvalue_reference_t Iterable).

(** [get_index<Iterable>::type]: the partial specialisation is chosen when
    [typename std::remove_reference_t<Iterable>::size_type] is well formed. *)
Definition get_index (Iterable : cpp_type) : cpp_type :=
  match member_size_type (remove_reference_t Iterable) with
  | Some size_type => size_type
  | None => size_t
  end.

Definition get_index_t (Iterable : cpp_type) : cpp_type := get_index Iterable.

Definition enumerate_result_type (Iterable Index : cpp_type)
    : instantiation enumerator_decls :=
  enumerator Iterable Index.

(** *** xtr::enumerate (lines 451-463) *)

(** The value category of an argument expression; an xvalue or a prvalue is
    an [rvalue]. *)
Inductive value_category : Type := lvalue | rvalue.

(** Deduction of [Iterable] from the forwarding reference [Iterable &&]
    for an argument of object type [T]. *)
Definition deduce (T : cpp_type) (cat : value_category) : cpp_type :=
  match cat with
  | lvalue => lref T
  | rvalue => T
  end.

(** The return type of both overloads of [enumerate<Iterable, Index>];
    [Index] is [None] when the caller leaves it to its default. *)
Definition enumerate (Iterable : cpp_type) (Index : option cpp_type)
    : instantiation enumerator_decls :=
  let Index := default (get_index_t Iterable) Index in
  enumerate_result_type (add_rvalue_reference_t Iterable) Index.

End Meta.

(** ** Run time *)

(** Computations over a state [W] that may have no result: [None] stands
    for undefined behaviour of an operation of the wrapped iterable or of
    the index (an access through a dangling reference, an increment past
    the end, a signed overflow), for an exception leaving it, and for a
    loop that did not finish within its fuel. *)
Definition M (W A : Type) : Type := W → option (A * W).

Definition ret {W A : Type} (a : A) : M W A := λ w, Some (a, w).

Definition bind {W A B : Type} (m : M W A) (k : A → M W B) : M W B :=
  λ w, match m w with
       | Some (a, w') => k a w'
       | None => None
       end.

Definition fail {W A : Type} : M W A := λ _, None.

Notation "x <~ m ; k" := (bind m (λ x, k))
  (at level 20, m at level 100, k at level 200, only parsing).
Notation "' pat <~ m ; k" := (bind m (λ pat, k))
  (at level 20, pat pattern, m at level 100, k at level 200, only parsing).

(** What the header requires of the type [Index]: value initialisation
    ([m_index{}]), pre-increment ([++m_index]) and a copy into the result of
    [operator*].  They are operations of a type the caller chooses, and may
    have no result: the increment of a signed integer overflows, and the
    operations of a class type may throw. *)
Class IndexOperations (W Index : Type) : Type := {
  index_value_init : M W Index;
  index_pre_increment : Index → M W Index;
  index_copy : Index → M W Index;
}.

(** An index type of which these operations are total functions of the
    value, as they are for the unsigned integer types: [index_init] is the
    value of [Index{}], [index_incr i] that of [++i]. *)
Class IndexType (Index : Type) : Type := {
  index_init : Index;
  index_incr : Index → Index;
}.

#[global] Instance index_operations {W Index : Type} `{!IndexType Index}
    : IndexOperations W Index := {|
  index_value_init := ret index_init;
  index_pre_increment := λ i, ret (index_incr i);
  index_copy := ret;
|}.

(** An unsigned integer type of [bits] bits: the values [0 .. 2^bits - 1],
    with arithmetic modulo [2^bits]. *)
Definition uint (bits : N) : Type := Z.

#[global] Instance uint_index (bits : N) : IndexType (uint bits) := {|
  index_init := 0%Z;
  index_incr := λ i, ((i + 1) mod 2 ^ Z.of_N bits)%Z;
|}.

(** A signed integer type of [bits] bits, [int] or wider: the values
    [-2^(bits-1) .. 2^(bits-1) - 1]; an increment that overflows is
    undefined. *)
Definition sint (bits : N) : Type := Z.

Definition sint_index {W : Type} (bits : N)
    : IndexOperations W (sint bits) := {|
  index_value_init := ret 0%Z;
  index_pre_increment := λ i,
    if decide (i + 1 < 2 ^ (Z.of_N bits - 1))%Z then ret (i + 1)%Z else fail;
  index_copy := ret;
|}.

(** What the header requires of the iterator of the wrapped iterable and of
    its end sentinel: [it != end], [++it] (which gives the iterator its new
    position) and [*it] (which, as an iterator must, leaves the position as
    it is). *)
Class Iterator (W Iter Sent Ref : Type) : Type := {
  iter_neq : Iter → Sent → M W bool;
  iter_incr : Iter → M W Iter;
  iter_deref : Iter → M W Ref;
}.

(** What the header requires of the wrapped iterable: [begin(c)] and
    [end(c)] on an lvalue [c]. *)
Class Iterable (W C Iter Sent : Type) : Type := {
  std_begin : C → M W Iter;
  std_end : C → M W Sent;
}.

(** Objects live in a store; a reference is the location of its referent. *)
Abbreviation loc := positive.

(** Initialisation of a [C] from an rvalue [C]: the new object has the
    value the source had; the source is left as [moved_from] says (for a
    type that copies, as for every rvalue that is [const], unchanged). *)
Class MoveConstructible (C : Type) : Type := {
  moved_from : C → C;
}.

(** An argument of the variadic constructors: a reference to an iterable
    object of the store, or any other value. *)
Inductive parameter (Arg : Type) : Type :=
  | object (l : loc)
  | value (a : Arg).
Global Arguments object {Arg} l.
Global Arguments value {Arg} a.

(** List initialisation [C{parameters...}] of the wrapped type. *)
Class ListConstructible (Arg C : Type) : Type := {
  construct : list (parameter Arg) → M (gmap loc C) C;
}.

Module xtr.

(** *** indexed_iterator_base, indexed_iterator (lines 293-375) *)

Record indexed_iterator (Iter Index : Type) : Type := {
  m_iterator : Iter;
  m_index : Index;
}.
Global Arguments m_iterator {Iter Index} self : rename.
Global Arguments m_index {Iter Index} self : rename.

(** *** enumerator_base, enumerator (lines 234-291) *)

(** [m_iterable] is the iterable the member denotes, whether the member is
    a reference or an object. *)
Record enumerator (C Index : Type) : Type := {
  m_iterable : C;
}.
Global Arguments m_iterable {C Index} object : rename.

Section detail.
Context {W Iter Sent Ref Index : Type}.
Context `{!Iterator W Iter Sent Ref, !IndexOperations W Index}.
Implicit Types self : indexed_iterator Iter Index.

(** [indexed_iterator(iterator_type iterator)], which initialises the base
    with the iterator and then [m_index{}]. *)
Definition indexed_iterator_ctor (iterator : Iter)
    : M W (indexed_iterator Iter Index) :=
  idx <~ index_value_init;
  ret {| m_iterator := iterator; m_index := idx |}.

(** [operator!=(EndIterator &&end) const] *)
Definition op_neq self (end_ : Sent) : M W bool :=
  iter_neq (m_iterator self) end_.

(** [void operator++()]: the result is the new state of the object. *)
Definition op_incr self : M W (indexed_iterator Iter Index) :=
  it <~ iter_incr (m_iterator self);
  idx <~ index_pre_increment (m_index self);
  ret {| m_iterator := it; m_index := idx |}.

(** [dereference_result_type operator*()]: not a [const] member, so the
    state of the object is returned with the result.  The tuple is made of
    a copy of [m_index] and of what dereferencing [m_iterator] gives. *)
Definition op_deref self
    : M W ((Index * Ref) * indexed_iterator Iter Index) :=
  r <~ iter_deref (m_iterator self);
  idx <~ index_copy (m_index self);
  ret ((idx, r), self).

(** [*it] on the wrapped iterator, as a step of a loop over it. *)
Definition iter_deref_step (it : Iter) : M W (Ref * Iter) :=
  r <~ iter_deref it;
  ret (r, it).

(** [for (; b != e; ++b) { v = *b; ... }], collecting each [v]. *)
Fixpoint for_loop {I S V : Type} (neq : I → S → M W bool)
    (incr : I → M W I) (deref : I → M W (V * I))
    (fuel : nat) (b : I) (e : S) : M W (list V) :=
  match fuel with
  | 0 => fail
  | S fuel =>
      continue <~ neq b e;
      if continue : bool then
        '(v, b) <~ deref b;
        b <~ incr b;
        vs <~ for_loop neq incr deref fuel b e;
        ret (v :: vs)
      else ret []
  end.

(** [n] dereferences of the adapter's iterator in a row. *)
Fixpoint deref_times (n : nat) self
    : M W (list (Index * Ref) * indexed_iterator Iter Index) :=
  match n with
  | 0 => ret ([], self)
  | S n =>
      '(v, self) <~ op_deref self;
      '(vs, self) <~ deref_times n self;
      ret (v :: vs, self)
  end.

End detail.

(** The values [m_index] takes from [i] on: [i], [++i], ... ([n] of them). *)
Fixpoint counting {Index : Type} `{!IndexType Index} (i : Index) (n : nat)
    : list Index :=
  match n with
  | 0 => []
  | S n => i :: counting (index_incr i) n
  end.

Section enumerator.
Context {W C Iter Sent Ref Index : Type}.
Context `{!Iterator W Iter Sent Ref, !Iterable W C Iter Sent,
          !IndexOperations W Index}.
Implicit Types object range : enumerator C Index.

(** [begin(enumerator<Iterable, Index> &object)] *)
Definition begin object : M W (indexed_iterator Iter Index) :=
  it <~ std_begin (m_iterable object);
  indexed_iterator_ctor it.

(** [end(enumerator_base<Iterable> &object)] *)
Definition end_ object : M W Sent :=
  std_end (m_iterable object).

(** [for (auto v : range) ...] over the adapter, collecting each [v]. *)
Definition range_for (fuel : nat) range : M W (list (Index * Ref)) :=
  b <~ begin range;
  e <~ end_ range;
  for_loop op_neq op_incr op_deref fuel b e.

(** [for (auto v : c) ...] over the wrapped iterable itself. *)
Definition range_for_direct (fuel : nat) (c : C) : M W (list Ref) :=
  b <~ std_begin c;
  e <~ std_end c;
  for_loop iter_neq iter_incr iter_deref_step fuel b e.

End enumerator.

Section construction.
Context {C Arg Index : Type}.
Context `{!MoveConstructible C, !ListConstructible Arg C}.

(** [enumerator_base(iterable_type iterable)], which initialises
    [m_iterable{std::forward<iterable_type>(iterable)}].  The result is
    the location of the iterable that [m_iterable] denotes. *)
Definition enumerator_base_ctor (iterable_type : Meta.cpp_type)
    (iterable : loc) : M (gmap loc C) loc :=
  if Meta.is_reference_v (Meta.get_stored_t iterable_type) then
    (* a reference member: bound to the referent of the argument *)
    ret iterable
  else
    (* a member object: initialised from the rvalue, in storage of the
       adapter *)
    λ s, c ← s !! iterable;
         let l := fresh (dom s) in
         Some (l, <[l := c]> (<[iterable := moved_from c]> s)).

(** [enumerator_base(Parameters &&...parameters)], which initialises
    [m_iterable{std::forward<Parameters>(parameters)...}]. *)
Definition enumerator_base_ctor_variadic (iterable_type : Meta.cpp_type)
    (parameters : list (parameter Arg)) : M (gmap loc C) loc :=
  if Meta.is_reference_v (Meta.get_stored_t iterable_type) then
    (* a reference member binds to one iterable; anything else is ill
       formed *)
    match parameters with
    | [object l] => ret l
    | _ => fail
    end
  else
    c <~ construct parameters;
    λ s, let l := fresh (dom s) in Some (l, <[l := c]> s).

(** [enumerator(iterable_type iterable)] *)
Definition enumerator_ctor (iterable_type : Meta.cpp_type)
    (iterable : loc) : M (gmap loc C) (enumerator loc Index) :=
  l <~ enumerator_base_ctor iterable_type iterable;
  ret {| m_iterable := l |}.

(** [enumerator(Parameters &&...parameters)] *)
Definition enumerator_ctor_variadic (iterable_type : Meta.cpp_type)
    (parameters : list (parameter Arg))
    : M (gmap loc C) (enumerator loc Index) :=
  l <~ enumerator_base_ctor_variadic iterable_type parameters;
  ret {| m_iterable := l |}.

(** *** xtr::enumerate (lines 451-463) *)

(** [enumerate<Iterable, Index>(Iterable &&iterable)] *)
Definition enumerate (Iterable : Meta.cpp_type) (iterable : loc)
    : M (gmap loc C) (enumerator loc Index) :=
  enumerator_ctor (Meta.add_rvalue_reference_t Iterable) iterable.

(** [enumerate<Iterable, Index, Parameters...>(Parameters &&...parameters)] *)
Definition enumerate_variadic (Iterable : Meta.cpp_type)
    (parameters : list (parameter Arg))
    : M (gmap loc C) (enumerator loc Index) :=
  enumerator_ctor_variadic (Meta.add_rvalue_reference_t Iterable) parameters.

End construction.

End xtr.

(** ** A wrapped iterable: std::vector

    The header is written against any iterable.  [std::vector<Elem>] is the
    one the examples run on: a vector is a list in the store, its iterator
    is a position in it, and dereferencing gives a reference to the element
    at that position. *)

Module vector.

Section vector.
Context {Elem : Type}.

(** The element a reference refers to. *)
Definition load (s : gmap loc (list Elem)) (r : loc * nat) : option Elem :=
  v ← s !! r.1; v !! r.2.

#[global] Instance iterable
    : Iterable (gmap loc (list Elem)) loc (loc * nat) (loc * nat) := {|
  std_begin := λ l s, v ← s !! l; Some ((l, 0), s);
  std_end := λ l s, v ← s !! l; Some ((l, length v), s);
|}.

#[global] Instance iterator
    : Iterator (gmap loc (list Elem)) (loc * nat) (loc * nat) (loc * nat) := {|
  iter_neq := λ a b, ret (negb (bool_decide (a = b)));
  iter_incr := λ a s,
    v ← s !! a.1;
    if decide (a.2 < length v) then Some ((a.1, S a.2), s) else None;
  iter_deref := λ a s, _ ← load s a; Some (a, s);
|}.

(** A vector that was moved from is empty: the move constructor of
    [std::vector], which an rvalue that is not [const] selects. *)
#[global] Instance move_constructible : MoveConstructible (list Elem) := {|
  moved_from := λ _, [];
|}.

(** [std::vector<Elem>{v}] copies the vector [v];
    [std::vector<Elem>{a, b, ...}] has the elements [a], [b], ... *)
#[global] Instance list_constructible
    : ListConstructible Elem (list Elem) := {|
  construct := λ parameters s,
    match parameters with
    | [object l] => v ← s !! l; Some (v, s)
    | _ =>
        v ← mapM (λ p, match p with
                       | value a => Some a
                       | object _ => None
                       end) parameters;
        Some (v, s)
    end;
|}.

End vector.

(** [std::vector<T>], whose [size_type] is [std::size_t]. *)
Definition type (name : string) : Meta.cpp_type :=
  Meta.class_ name (Some Meta.size_t).

End vector.

(** ** Example data *)

Module Examples.

(** [std::vector<std::string> v{"a", "b", "c"}] at location 1. *)
Definition abc : gmap loc (list string) :=
  {[ 1%positive := ["a"; "b"; "c"]%string ]}.

(** A vector of 257 elements at location 1. *)
Definition long : gmap loc (list string) :=
  {[ 1%positive := replicate 257 "x"%string ]}.

Definition vector_of_string : Meta.cpp_type :=
  vector.type "std::vector<std::string>".

(** The iterator of a vector, dereferenced, is a reference to an element. *)
Definition vector_decltype : Meta.Decltype := {|
  Meta.decltype_begin := λ _, Meta.named "std::vector<std::string>::iterator";
  Meta.decltype_end := λ _, Meta.named "std::vector<std::string>::iterator";
  Meta.decltype_deref := λ _, Meta.lref (Meta.named "std::string");
|}.

(** The references to the elements of the vector at location 1. *)
Definition refs (n : nat) : list (loc * nat) :=
  (λ k, (1%positive, k)) <$> seq 0 n.

(** The adapter over the named vector at location 1. *)
Definition named_vector (Index : Type) : xtr.enumerator loc Index :=
  {| xtr.m_iterable := 1%positive |}.

(** [std::vector<std::string>::iterator &&], the [Iterator] argument of the
    adapter's iterator over a vector. *)
Definition vector_iterator_type : Meta.cpp_type :=
  Meta.rref (Meta.named "std::vector<std::string>::iterator").

End Examples.

(** ** Compile time: the exception specifications (lines 244-446)

    Every function of the adapter is declared [noexcept(X::value)] for a
    trait [X] that the header computes from the types involved.  The traits
    are functions to [bool] here; what the compiler answers for the wrapped
    types is a type class. *)

Module Nothrow.
Import Meta.

Fixpoint cpp_type_eq_dec (a b : cpp_type) {struct a} : {a = b} + {a ≠ b}.
Proof.
  decide equality.
  all: try apply N.eq_dec.
  all: try apply bool_dec.
  all: try apply String.string_dec.
  all: try (decide equality; apply cpp_type_eq_dec).
  all: try apply (List.list_eq_dec cpp_type_eq_dec).
Defined.

#[global] Instance cpp_type_eq : EqDecision cpp_type := cpp_type_eq_dec.

(** A type as C++ has them: not a reference to a reference. *)
Definition well_formed (t : cpp_type) : bool :=
  negb (is_reference_v (remove_reference_t t)).

Class Noexcept : Type := {
  (* [std::is_nothrow_constructible_v<t, args...>], for a type [t] that is
     not a class of the header *)
  is_nothrow_constructible_v : cpp_type → list cpp_type → bool;
  (* whether a parameter of type [p] accepts an argument that
     [std::declval] gives the type [d], other than [p] itself (by a
     conversion) *)
  accepts_by_conversion : cpp_type → cpp_type → bool;
  (* [noexcept(begin(e))] and [noexcept(end(e))] for [e] of type [t] *)
  noexcept_begin : cpp_type → bool;
  noexcept_end : cpp_type → bool;
  (* [noexcept(++e)] and the same for dereferencing, for [e] of type [t] *)
  noexcept_incr : cpp_type → bool;
  noexcept_deref : cpp_type → bool;
  (* [noexcept(a != b)] for [a] of type [t] and [b] of type [u] *)
  noexcept_neq : cpp_type → cpp_type → bool;
}.

Section traits.
Context `{!Decltype, !Noexcept}.

(** [std::is_nothrow_move_constructible_v<t>] *)
Definition is_nothrow_move_constructible_v (t : cpp_type) : bool :=
  is_nothrow_constructible_v t [add_rvalue_reference_t t].

(** [std::is_nothrow_default_constructible_v<t>] *)
Definition is_nothrow_default_constructible_v (t : cpp_type) : bool :=
  is_nothrow_constructible_v t [].

(** Overload resolution between a constructor with the one parameter [P]
    and a constructor template [(Parameters &&...)], for arguments to which
    [std::declval] gives the types [args]: the template is an exact match
    for everything, so the other one is selected only when it is an exact
    match too. *)
Definition selects_fixed (P : cpp_type) (args : list cpp_type) : bool :=
  match args with
  | [a] => bool_decide (add_rvalue_reference_t a = P)
  | _ => false
  end.

(** Deduction of [Parameters] from [Parameters &&...]: an lvalue of type
    [T] gives [T &], an rvalue gives [T]. *)
Definition deduce_parameters (args : list cpp_type) : list cpp_type :=
  (λ a, match a with
        | rref t => t
        | _ => a
        end) <$> args.

(** The classes of the header declare no copy or move constructor, so
    each has the implicit ones, which take part in overload resolution with
    the declared constructors.  Against the template [(Parameters &&...)],
    an exact match for everything, an implicit constructor of the class
    [class] is selected only when it is an exact match too: the move
    constructor for an rvalue of the class itself that is not [const], the
    copy constructor for an lvalue of it that is [const].  (For a derived
    class, or any other qualification, the template is the better
    match.) *)
Inductive implicit_constructor : Type := copy_constructor | move_constructor.

Definition selects_implicit (class : cpp_type) (args : list cpp_type)
    : option implicit_constructor :=
  match args with
  | [a] =>
      match add_rvalue_reference_t a with
      | rref c => if bool_decide (c = class) then Some move_constructor
                  else None
      | lref (const c) => if bool_decide (c = class) then Some copy_constructor
                          else None
      | _ => None
      end
  | _ => None
  end.

(** The exception specification of the implicit constructors of
    [enumerator_base<Iterable>], and of [enumerator<Iterable, Index>],
    which has no member of its own: that of initialising [m_iterable] from
    the [m_iterable] of the source. *)
Definition implicit_constructor_noexcept (Iterable : cpp_type)
    (selected : implicit_constructor) : bool :=
  let stored := get_stored_t Iterable in
  if is_reference_v stored then true
  else
    match selected with
    | move_constructor =>
        is_nothrow_constructible_v stored [add_rvalue_reference_t stored]
    | copy_constructor =>
        is_nothrow_constructible_v stored [lref (add_const_t stored)]
    end.

(** How deep references, [const] and the classes of the header nest in a
    type. *)
Fixpoint depth (t : cpp_type) : nat :=
  match t with
  | const u | lref u | rref u => S (depth u)
  | class_enumerator_base Iterable => S (depth Iterable)
  | class_enumerator Iterable _ => S (depth Iterable)
  | _ => 0
  end.

(** [enumerator_base<Iterable>::is_constructor_noexcept] *)
Definition enumerator_base_is_constructor_noexcept (Iterable : cpp_type)
    : bool :=
  let iterable_type := Iterable in
  if is_reference_v (get_stored_t iterable_type) then true
  else is_nothrow_move_constructible_v (get_stored_t iterable_type).

(** [enumerator_base<Iterable>::is_variadic_constructor_noexcept<Parameters...>] *)
Definition enumerator_base_is_variadic_constructor_noexcept
    (Iterable : cpp_type) (Parameters : list cpp_type) : bool :=
  let iterable_type := Iterable in
  is_nothrow_constructible_v (get_stored_t iterable_type)
    (add_rvalue_reference_t <$> Parameters).

(** [std::is_nothrow_constructible_v<enumerator_base<Iterable>, args...>] *)
Definition enumerator_base_is_nothrow_constructible (Iterable : cpp_type)
    (args : list cpp_type) : bool :=
  match selects_implicit (class_enumerator_base Iterable) args with
  | Some selected => implicit_constructor_noexcept Iterable selected
  | None =>
      if selects_fixed Iterable args
      then enumerator_base_is_constructor_noexcept Iterable
      else enumerator_base_is_variadic_constructor_noexcept Iterable
             (deduce_parameters args)
  end.

(** [enumerator<Iterable, Index>::is_constructor_noexcept] *)
Definition enumerator_is_constructor_noexcept (Iterable Index : cpp_type)
    : bool :=
  let iterable_type := Iterable in
  enumerator_base_is_nothrow_constructible Iterable
    [add_rvalue_reference_t iterable_type].

(** [enumerator<Iterable, Index>::is_variadic_constructor_noexcept<Parameters...>] *)
Definition enumerator_is_variadic_constructor_noexcept
    (Iterable Index : cpp_type) (Parameters : list cpp_type) : bool :=
  enumerator_base_is_nothrow_constructible Iterable
    (add_rvalue_reference_t <$> Parameters).

(** [std::is_nothrow_constructible_v<enumerator<Iterable, Index>, args...>] *)
Definition enumerator_is_nothrow_constructible (Iterable Index : cpp_type)
    (args : list cpp_type) : bool :=
  match selects_implicit (class_enumerator Iterable Index) args with
  | Some selected => implicit_constructor_noexcept Iterable selected
  | None =>
      if selects_fixed Iterable args
      then enumerator_is_constructor_noexcept Iterable Index
      else enumerator_is_variadic_constructor_noexcept Iterable Index
             (deduce_parameters args)
  end.

(** [indexed_iterator_base<Iterator>::is_constructor_noexcept] *)
Definition indexed_iterator_base_is_constructor_noexcept
    (Iterator : cpp_type) : bool :=
  let iterator_type := Iterator in
  if is_reference_v (get_stored_t iterator_type) then true
  else is_nothrow_move_constructible_v (get_stored_t iterator_type).

(** Construction of the adapter's iterator, whose one declared constructor
    has the parameter [P], from arguments that are not that iterator itself
    (the header makes it from the iterator of the wrapped iterable only):
    there is one argument, which [P] accepts. *)
Definition constructible_from (P : cpp_type) (args : list cpp_type) : bool :=
  match args with
  | [a] =>
      bool_decide (add_rvalue_reference_t a = P)
      || accepts_by_conversion P (add_rvalue_reference_t a)
  | _ => false
  end.

(** [std::is_nothrow_constructible_v<indexed_iterator_base<Iterator>, args...>] *)
Definition indexed_iterator_base_is_nothrow_constructible
    (Iterator : cpp_type) (args : list cpp_type) : bool :=
  constructible_from Iterator args
  && indexed_iterator_base_is_constructor_noexcept Iterator.

(** [indexed_iterator<Iterator, Index>::is_constructor_noexcept] *)
Definition indexed_iterator_is_constructor_noexcept
    (Iterator Index : cpp_type) : bool :=
  let iterator_type := Iterator in
  let index_type := Index in
  is_nothrow_default_constructible_v index_type
  && indexed_iterator_base_is_nothrow_constructible Iterator
       [add_rvalue_reference_t iterator_type].

(** [std::is_nothrow_constructible_v<indexed_iterator<Iterator, Index>, args...>] *)
Definition indexed_iterator_is_nothrow_constructible
    (Iterator Index : cpp_type) (args : list cpp_type) : bool :=
  constructible_from Iterator args
  && indexed_iterator_is_constructor_noexcept Iterator Index.

(** [indexed_iterator_base<Iterator>::is_compare_noexcept<EndIterator>] *)
Definition is_compare_noexcept (Iterator EndIterator : cpp_type) : bool :=
  let iterator_type := Iterator in
  noexcept_neq (add_lvalue_reference_t iterator_type) EndIterator.

(** [indexed_iterator<Iterator, Index>::is_increment_noexcept] *)
Definition is_increment_noexcept (Iterator Index : cpp_type) : bool :=
  let iterator_type := Iterator in
  let index_type := Index in
  noexcept_incr (add_lvalue_reference_t iterator_type)
  && noexcept_incr (add_lvalue_reference_t index_type).

(** [indexed_iterator<Iterator, Index>::dereference_result_type] *)
Definition dereference_result_type (Iterator Index : cpp_type) : cpp_type :=
  let iterator_type := Iterator in
  let index_type := Index in
  tuple [add_const_t index_type;
         decltype_deref (add_lvalue_reference_t iterator_type)].

(** [indexed_iterator<Iterator, Index>::is_dereference_noexcept] *)
Definition is_dereference_noexcept (Iterator Index : cpp_type) : bool :=
  let iterator_type := Iterator in
  let index_type := Index in
  noexcept_deref (add_lvalue_reference_t iterator_type)
  && is_nothrow_constructible_v (dereference_result_type Iterator Index)
       [index_type; decltype_deref (add_lvalue_reference_t iterator_type)].

(** The [Iterator] argument of [begin_result_type<Iterable, Index>]. *)
Definition begin_iterator_type (Iterable : cpp_type) : cpp_type :=
  add_rvalue_reference_t (decltype_begin (add_lvalue_reference_t Iterable)).

(** [is_begin_noexcept<Iterable, Index>] *)
Definition is_begin_noexcept (Iterable Index : cpp_type) : bool :=
  noexcept_begin (add_lvalue_reference_t Iterable)
  && indexed_iterator_is_nothrow_constructible
       (begin_iterator_type Iterable) Index
       [decltype_begin (add_lvalue_reference_t Iterable)].

(** [is_end_noexcept<Iterable>] *)
Definition is_end_noexcept (Iterable : cpp_type) : bool :=
  noexcept_end (add_lvalue_reference_t Iterable).

(** [is_enumerate_noexcept<Iterable, Index>] *)
Definition is_enumerate_noexcept (Iterable Index : cpp_type) : bool :=
  enumerator_is_nothrow_constructible
    (add_rvalue_reference_t Iterable) Index
    [add_rvalue_reference_t Iterable].

(** [is_variadic_enumerate_noexcept<Iterable, Index, Parameters...>] *)
Definition is_variadic_enumerate_noexcept (Iterable Index : cpp_type)
    (Parameters : list cpp_type) : bool :=
  enumerator_is_nothrow_constructible
    (add_rvalue_reference_t Iterable) Index
    (add_rvalue_reference_t <$> Parameters).

End traits.

End Nothrow.

Module NothrowExamples.

(** What a compiler answers for [std::vector<std::string>], its iterator
    and [std::size_t]: moving and default construction do not throw,
    copying and construction from elements may; the operations of the
    iterator are declared [noexcept], [std::begin] and [std::end] are not
    (so in libstdc++). *)
Definition vector_noexcept : Nothrow.Noexcept := {|
  Nothrow.is_nothrow_constructible_v := λ t args,
    match args with
    | [] => true
    | [Meta.rref u] => bool_decide (u = t)
    | _ => false
    end;
  Nothrow.accepts_by_conversion := λ _ _, false;
  Nothrow.noexcept_begin := λ _, false;
  Nothrow.noexcept_end := λ _, false;
  Nothrow.noexcept_incr := λ _, true;
  Nothrow.noexcept_deref := λ _, true;
  Nothrow.noexcept_neq := λ _ _, true;
|}.

End NothrowExamples.

(** ** The adapter as a wrapped iterable

    The adapter and its iterator offer what the header requires of a
    wrapped iterable and of its iterator, so an adapter can be enumerated
    itself ([enumerate(enumerate(c))]).  Dereferencing is the adapter's
    [operator*], of which the result is kept. *)

Module Nested.

Section nested.
Context {W C Iter Sent Ref Index : Type}.
Context `{!Iterator W Iter Sent Ref, !Iterable W C Iter Sent,
          !IndexOperations W Index}.

Definition iterator
    : Iterator W (xtr.indexed_iterator Iter Index) Sent (Index * Ref) := {|
  iter_neq := xtr.op_neq;
  iter_incr := xtr.op_incr;
  iter_deref := λ self, '(v, _) <~ xtr.op_deref self; ret v;
|}.

Definition iterable
    : Iterable W (xtr.enumerator C Index)
        (xtr.indexed_iterator Iter Index) Sent := {|
  std_begin := xtr.begin;
  std_end := xtr.end_;
|}.

End nested.

End Nested.

(** ** The caller of [enumerate] *)

Module Caller.

(** [v = v'] on the vector at [l]. *)
Definition assign {Elem : Type} (l : loc) (v' : list Elem)
    : M (gmap loc (list Elem)) () :=
  λ s, _ ← s !! l; Some ((), <[l := v']> s).

End Caller.

(** ** The preprocessor directives (lines 17-193)

    The header is a sequence of conditional groups of [#define]s.  The
    state of the preprocessor, as far as the header reads and writes it, is
    the set of the names of the macros that are defined. *)

Module Preprocessor.

(** A group [#if condition] ... [#define name] ... [#endif]. *)
Record directive : Type := {
  condition : gset string → bool;
  defines : list string;
}.

(** [defined(name)] *)
Definition defined (name : string) (env : gset string) : bool :=
  bool_decide (name ∈ env).

(** The names defined after a directive, and the names it defined. *)
Definition run (st : gset string * list string) (d : directive)
    : gset string * list string :=
  if condition d st.1
  then (list_to_set (defines d) ∪ st.1, st.2 ++ defines d)
  else st.

Definition always (names : list string) : directive :=
  {| condition := λ _, true; defines := names |}.

(** The compiler is Microsoft's (line 77). *)
Definition is_msvc (env : gset string) : bool :=
  defined "_MSC_VER" env && negb (defined "__INTEL_COMPILER" env).

(** The directives between [#ifndef EXTRA_H] and its [#endif], in their
    order; [cplusplus] is whether [__cplusplus] is defined, with its
    value. *)
Definition directives (cplusplus : option N) : list directive :=
  [ (* 19 *) always ["EXTRA_H"];
    (* 23 *) always ["XTR_VERSION"];
    (* 27-31 *)
    {| condition := λ env, negb (defined "XTR_MINIMAL" env);
       defines := ["XTR_LOGGING"; "XTR_MULTIARRAY"; "XTR_ENUMERATE"] |};
    (* 77-78 *)
    {| condition := is_msvc; defines := ["XTR_COMPILER_MSVC"] |};
    (* 79-80 *)
    {| condition := λ env, negb (is_msvc env) && defined "__GNUC__" env;
       defines := ["XTR_COMPILER_GNUC"] |};
    (* 85-89 *) always ["XTR_NAMESPACE_STD"];
    (* 93-97 *) always ["XTR_NODISCARD"];
    (* 101-105 *) always ["XTR_CONSTEXPR"];
    (* 109-113 *) always ["XTR_CAST_VOID"];
    (* 117-123 *)
    {| condition := λ env,
         negb (defined "concat_string" env)
         && negb (defined "literal_string" env)
         && negb (defined "macro_string" env);
       defines := ["concat_string"; "literal_string"; "macro_string"] |};
    (* 127-137 *)
    {| condition := λ env, negb (defined "assume" env);
       defines := ["assume"] |};
    (* 141-149 *)
    {| condition := λ env, negb (defined "assert_assume" env);
       defines := ["assert_assume"] |};
    (* 153-163 *)
    {| condition := λ env,
         negb (defined "likely" env) && negb (defined "unlikely" env);
       defines := ["likely"; "unlikely"] |};
    (* 167-177 *)
    {| condition := λ env,
         negb (defined "restrict" env) && bool_decide (is_Some cplusplus);
       defines := ["restrict"] |};
    (* 181-193 *)
    {| condition := λ env,
         defined "XTR_LOGGING" env && negb (defined "debug_log" env);
       defines := ["debug_log"] |} ].

(** Including the header when the macros [pre] are defined: the macros
    defined afterwards, and those that the header defined. *)
Definition header (cplusplus : option N) (pre : gset string)
    : gset string * list string :=
  if defined "EXTRA_H" pre then (pre, [])
  else foldl run (pre, []) (directives cplusplus).

(** The C++ parts of the header that are compiled (lines 56-67, 197, 225). *)
Definition multiarray_enabled (cplusplus : option N) (pre : gset string)
    : bool :=
  negb (defined "EXTRA_H" pre)
  && defined "XTR_MULTIARRAY" (header cplusplus pre).1
  && bool_decide (is_Some cplusplus).

Definition enumerate_enabled (cplusplus : option N) (pre : gset string)
    : bool :=
  negb (defined "EXTRA_H" pre)
  && defined "XTR_ENUMERATE" (header cplusplus pre).1
  && bool_decide (is_Some cplusplus).

(** The macros that the header defines only when the includer has not. *)
Definition guarded : list string :=
  ["concat_string"; "literal_string"; "macro_string"; "assume";
   "assert_assume"; "likely"; "unlikely"; "restrict"; "debug_log"].

End Preprocessor.

(** Two translation units that include the header. *)
Module PreprocessorExamples.

(** C++17 under GCC, where the includer has its own [likely]. *)
Definition own_likely : gset string := {[ "__GNUC__"; "likely" ]}.

(** A release build under GCC that asks for [enumerate] alone. *)
Definition minimal_release : gset string :=
  {[ "__GNUC__"; "NDEBUG"; "XTR_MINIMAL"; "XTR_ENUMERATE" ]}.

Definition cxx17 : option N := Some 201703%N.

End PreprocessorExamples.

(** ** The assertion macros (lines 127-149)

    A statement runs in a state [W]: it goes on in a new state, ends the
    program through [abort], or has undefined behaviour.  An expression
    converted to [bool], as [!!(expression)] is, gives its value and the
    state after its side effects. *)

Module Macros.

Inductive outcome (W : Type) : Type :=
| continues (w : W)
| aborted (w : W)
| undefined.

Arguments continues {W} w.
Arguments aborted {W} w.
Arguments undefined {W}.

Definition statement (W : Type) : Type := W → outcome W.

Definition expression (W : Type) : Type := W → bool * W.

Section macros.
Context {W : Type}.

(** The intrinsics [__assume] of Microsoft's compiler and
    [__builtin_unreachable] of the GNU compilers. *)
Variable builtin_assume : expression W → statement W.
Variable builtin_unreachable : statement W.

(** [XTR_CAST_VOID(0)] (lines 109-113) *)
Definition cast_void_0 : statement W := continues.

(** [first; second] *)
Definition seq (first second : statement W) : statement W :=
  λ w, match first w with
       | continues w' => second w'
       | stopped => stopped
       end.

(** [assert] of [<cassert>] or [<assert.h>] (lines 35-41), which is
    [((void)0)] when [NDEBUG] was defined where that header was included,
    and otherwise calls [abort] when the expression is false. *)
Definition assert (ndebug : bool) (e : expression W) : statement W :=
  if ndebug then continues
  else λ w, let (value, w') := e w in
            if value then continues w' else aborted w'.

(** [assume] as the header defines it (lines 129-135), where the macros
    [env] are defined. *)
Definition assume (env : gset string) (e : expression W) : statement W :=
  if Preprocessor.defined "XTR_COMPILER_MSVC" env then builtin_assume e
  else if Preprocessor.defined "XTR_COMPILER_GNUC" env then
    λ w, let (value, w') := e w in
         if value then cast_void_0 w' else builtin_unreachable w'
  else cast_void_0.

(** [assert_assume] as the header defines it (lines 143-147), over the
    [assert] and the [assume] that are in force where it is used; the body
    of [do ... while(0)] runs once. *)
Definition assert_assume (env : gset string)
    (assert assume : expression W → statement W) (e : expression W)
    : statement W :=
  if Preprocessor.defined "NDEBUG" env
  then seq (assert e) (assume e)
  else assume e.

End macros.

(** A counter that the expression [++counter > 1] increments. *)
Definition increment_exceeds_1 : expression nat :=
  λ counter, (bool_decide (1 < S counter), S counter).

End Macros.

(** * Properties *)

Import xtr.

(** ** The monad *)

Lemma bind_Some {W A B : Type} (m : M W A) (k : A → M W B) w b w' :
  bind m k w = Some (b, w') ↔ ∃ a w1, m w = Some (a, w1) ∧ k a w1 = Some (b, w').
Proof.
  unfold bind. destruct (m w) as [[a w1]|]; split.
  - intros Hk. by exists a, w1.
  - by intros (? & ? & [= <- <-] & Hk).
  - done.
  - by intros (? & ? & ? & _).
Qed.

(** ** Traversal of the adapter and of the wrapped iterable *)

Section traversal.
Context {W C Iter Sent Ref Index : Type}.
Context `{!Iterator W Iter Sent Ref, !Iterable W C Iter Sent,
          !IndexType Index}.
Implicit Types (self : indexed_iterator Iter Index) (w : W) (e : Sent).

(** The pairs the adapter makes of the references [rs], counting from [idx]. *)
Local Abbreviation indexed idx :=
  (λ '(rs, w'), (zip (counting idx (length rs)) rs, w')).

Lemma op_incr_spec self w :
  op_incr self w =
  (λ '(it, w'),
     ({| m_iterator := it; m_index := index_incr (m_index self) |}, w'))
    <$> iter_incr (m_iterator self) w.
Proof.
  unfold op_incr, bind, ret.
  by destruct (iter_incr (m_iterator self) w) as [[it w']|].
Qed.

Lemma op_deref_spec self w :
  op_deref self w =
  (λ '(r, w'), ((m_index self, r), self, w'))
    <$> iter_deref (m_iterator self) w.
Proof.
  unfold op_deref, bind, ret.
  by destruct (iter_deref (m_iterator self) w) as [[r w']|].
Qed.

Lemma iter_deref_step_spec (it : Iter) w :
  iter_deref_step it w = (λ '(r, w'), (r, it, w')) <$> iter_deref it w.
Proof.
  unfold iter_deref_step, bind, ret.
  by destruct (iter_deref it w) as [[r w']|].
Qed.

(** One turn of the loop. *)
Lemma for_loop_S {I S V : Type} (neq : I → S → M W bool)
    (incr : I → M W I) (deref : I → M W (V * I)) fuel (b : I) (s : S) w :
  for_loop neq incr deref (Datatypes.S fuel) b s w =
  match neq b s w with
  | Some (true, w1) =>
      match deref b w1 with
      | Some ((v, b1), w2) =>
          match incr b1 w2 with
          | Some (b2, w3) =>
              (λ '(vs, w4), (v :: vs, w4))
                <$> for_loop neq incr deref fuel b2 s w3
          | None => None
          end
      | None => None
      end
  | Some (false, w1) => Some ([], w1)
  | None => None
  end.
Proof.
  cbn [for_loop]. unfold bind, ret.
  destruct (neq b s w) as [[[] w1]|]; [|done..].
  destruct (deref b w1) as [[[v b1] w2]|]; [|done].
  destruct (incr b1 w2) as [[b2 w3]|]; [|done].
  by destruct (for_loop neq incr deref fuel b2 s w3) as [[vs w4]|].
Qed.

(** The loop over the adapter's iterator runs the loop over the wrapped
    iterator, and pairs what it dereferences with the counter. *)
Lemma for_loop_indexed fuel (it : Iter) (idx : Index) e w :
  for_loop op_neq op_incr op_deref fuel
    {| m_iterator := it; m_index := idx |} e w =
  indexed idx <$> for_loop iter_neq iter_incr iter_deref_step fuel it e w.
Proof.
  revert it idx w. induction fuel as [|fuel IH]; intros it idx w; [done|].
  rewrite !for_loop_S. unfold op_neq at 1. cbn [m_iterator].
  destruct (iter_neq it e w) as [[[] w1]|]; [|done..].
  rewrite op_deref_spec, iter_deref_step_spec. cbn [m_iterator m_index].
  destruct (iter_deref it w1) as [[r w2]|]; [|done]. cbn [fmap option_fmap option_map].
  rewrite op_incr_spec. cbn [m_iterator m_index].
  destruct (iter_incr it w2) as [[it' w3]|]; [|done]. cbn [fmap option_fmap option_map].
  rewrite IH.
  by destruct (for_loop iter_neq iter_incr iter_deref_step fuel it' e w3)
    as [[rs w4]|].
Qed.

Lemma range_for_indexed fuel (c : C) w :
  range_for (Index := Index) fuel {| m_iterable := c |} w =
  indexed index_init <$> range_for_direct fuel c w.
Proof.
  unfold range_for, range_for_direct, begin, end_, indexed_iterator_ctor.
  cbn [m_iterable index_value_init index_operations]. unfold bind, ret.
  destruct (std_begin c w) as [[b w1]|]; [|done].
  destruct (std_end c w1) as [[e w2]|]; [|done].
  apply for_loop_indexed.
Qed.

Lemma counting_length (i : Index) n : length (counting i n) = n.
Proof. revert i. induction n as [|n IH]; intros i; cbn; by rewrite ?IH. Qed.

Lemma zip_counting_snd (i : Index) (rs : list Ref) :
  (zip (counting i (length rs)) rs).*2 = rs.
Proof. apply snd_zip. by rewrite counting_length. Qed.

Lemma zip_counting_fst (i : Index) (rs : list Ref) :
  (zip (counting i (length rs)) rs).*1 = counting i (length rs).
Proof. apply fst_zip. by rewrite counting_length. Qed.

(** C3.  One advancement of the adapter ([operator++]) advances the wrapped
    position and increments the index counter in the same step.  The
    loop-continuation test ([operator!=]) compares the wrapped position
    with the end sentinel and is the same for every value of the index.
    So the traversal stops at a step exactly when the wrapped position
    compares equal to the sentinel there, and is as long as the traversal of
    the wrapped iterable.  The sentinel of the adapter is the end sentinel
    of the wrapped iterable ([end] on the adapter is [end] on it): a
    traversal of the adapter ends at once exactly when the first position
    of the wrapped iterable compares equal to its end sentinel, and in
    general ends when the traversal of the wrapped iterable from its first
    position to its end sentinel does, after as many steps.  For an index
    type of any kind, an advancement has a result exactly when the wrapped
    position advances and then the index is incremented, and the result
    has both. *)
Theorem advancement_in_lockstep self e w fuel (range : enumerator C Index)
    {Index' : Type} `{!IndexOperations W Index'}
    (self' : indexed_iterator Iter Index') :
  op_incr self w =
    (λ '(it, w'),
       ({| m_iterator := it; m_index := index_incr (m_index self) |}, w'))
      <$> iter_incr (m_iterator self) w
  ∧ (∀ idx : Index,
       op_neq {| m_iterator := m_iterator self; m_index := idx |} e w =
       iter_neq (m_iterator self) e w)
  ∧ ((∃ w', for_loop op_neq op_incr op_deref (S fuel) self e w = Some ([], w'))
     ↔ (∃ w', iter_neq (m_iterator self) e w = Some (false, w')))
  ∧ (length ∘ fst) <$> for_loop op_neq op_incr op_deref fuel self e w =
    (length ∘ fst)
      <$> for_loop iter_neq iter_incr iter_deref_step fuel (m_iterator self) e w
  ∧ end_ range w = std_end (m_iterable range) w
  ∧ ((∃ w', range_for (S fuel) range w = Some ([], w'))
     ↔ (∃ first last w1 w2 w',
          std_begin (m_iterable range) w = Some (first, w1)
          ∧ std_end (m_iterable range) w1 = Some (last, w2)
          ∧ iter_neq first last w2 = Some (false, w')))
  ∧ (∀ pairs w',
       range_for fuel range w = Some (pairs, w') →
       ∃ rs, range_for_direct fuel (m_iterable range) w = Some (rs, w')
             ∧ length pairs = length rs)
  ∧ (∀ rs w',
       range_for_direct fuel (m_iterable range) w = Some (rs, w') →
       ∃ pairs, range_for fuel range w = Some (pairs, w')
                ∧ length pairs = length rs)
  ∧ (∀ next w',
       op_incr self' w = Some (next, w')
       ↔ ∃ w1, iter_incr (m_iterator self') w = Some (m_iterator next, w1)
               ∧ index_pre_increment (m_index self') w1
                 = Some (m_index next, w')).
Proof.
  assert (∀ (pos : indexed_iterator Iter Index) snt w0,
    (∃ w', for_loop op_neq op_incr op_deref (S fuel) pos snt w0
           = Some ([], w'))
    ↔ (∃ w', iter_neq (m_iterator pos) snt w0 = Some (false, w')))
    as Hstop.
  { intros pos snt w0. rewrite for_loop_S.
    change (op_neq pos snt w0) with (iter_neq (m_iterator pos) snt w0).
    split.
    + intros [w' Hloop]. destruct (iter_neq (m_iterator pos) snt w0)
        as [[[] w1]|]; [|by eexists|done].
      destruct (op_deref pos w1) as [[[v b1] w2]|]; [|done].
      destruct (op_incr b1 w2) as [[b2 w3]|]; [|done].
      destruct (for_loop op_neq op_incr op_deref fuel b2 snt w3) as [[]|];
        cbn in Hloop; congruence.
    + intros [w' ->]. by eexists. }
  split; [apply op_incr_spec|]. split; [done|]. split; [apply Hstop|].
  split.
  { destruct self as [it idx]. rewrite for_loop_indexed. cbn [m_iterator].
    destruct (for_loop iter_neq iter_incr iter_deref_step fuel it e w)
      as [[rs w']|]; [|done].
    cbn. by rewrite length_zip, counting_length, Nat.min_id. }
  split; [done|]. destruct range as [c]. cbn [m_iterable]. split.
  { unfold range_for, begin, end_, indexed_iterator_ctor.
    cbn [m_iterable index_value_init index_operations]. unfold bind, ret.
    split.
    - intros [w' Hloop].
      destruct (std_begin c w) as [[first w1]|]; [|done].
      destruct (std_end c w1) as [[last w2]|] eqn:Hlast; [|done].
      destruct (proj1 (Hstop _ _ _) (ex_intro _ w' Hloop)) as [w'' Hneq].
      exists first, last, w1, w2, w''. split; [done|]. split; [done|].
      exact Hneq.
    - intros (first & last & w1 & w2 & w' & -> & -> & Hneq).
      apply Hstop. exists w'. exact Hneq. }
  rewrite range_for_indexed.
  split; [|split].
  - destruct (range_for_direct fuel c w) as [[rs w1]|]; [|done].
    intros pairs w' [= <- <-]. exists rs. split; [done|].
    by rewrite length_zip, counting_length, Nat.min_id.
  - destruct (range_for_direct fuel c w) as [[rs w1]|]; [|done].
    intros rs' w' [= <- <-]. eexists. split; [done|].
    by rewrite length_zip, counting_length, Nat.min_id.
  - intros next w'. unfold op_incr, bind, ret.
    destruct (iter_incr (m_iterator self') w) as [[it w1]|].
    + destruct (index_pre_increment (m_index self') w1) as [[idx w2]|]
        eqn:Hidx.
      * split.
        -- intros [= <- <-]. by exists w1.
        -- intros (w3 & [= -> ->] & Hnext). rewrite Hidx in Hnext.
           injection Hnext as [= -> ->]. by destruct next.
      * split; [done|]. intros (w3 & [= _ <-] & Hnext).
        by rewrite Hidx in Hnext.
    + split; [done|]. by intros (? & ? & _).
Qed.

(** C4.  The element component of a produced pair is the result of
    dereferencing the wrapped position, and dereferencing the adapter
    changes the state as dereferencing the wrapped iterator does.  The
    traversal of the adapter is the traversal of the wrapped iterable with
    an index put beside each element: the same elements in the same order,
    and the same final state. *)
Theorem enumeration_frame fuel (c : C) w :
  (∀ self w1,
     op_deref self w1 =
     (λ '(r, w2), ((m_index self, r), self, w2))
       <$> iter_deref (m_iterator self) w1)
  ∧ range_for (Index := Index) fuel {| m_iterable := c |} w =
    (λ '(rs, w'), (zip (counting index_init (length rs)) rs, w'))
      <$> range_for_direct fuel c w
  ∧ (∀ pairs w',
       range_for (Index := Index) fuel {| m_iterable := c |} w
         = Some (pairs, w') →
       range_for_direct fuel c w = Some (pairs.*2, w')).
Proof.
  split; [apply op_deref_spec|]. split; [apply range_for_indexed|].
  intros pairs w'. rewrite range_for_indexed.
  destruct (range_for_direct fuel c w) as [[rs w1]|]; [|done].
  intros [= <- <-]. by rewrite zip_counting_snd.
Qed.

Lemma deref_times_spec n self w vs self' w' :
  deref_times n self w = Some (vs, self', w') →
  self' = self ∧ length vs = n ∧ Forall (λ v, v.1 = m_index self) vs.
Proof.
  revert w vs. induction n as [|n IH]; intros w vs; cbn [deref_times].
  { by intros [= <- <- <-]. }
  intros ([v self1] & w1 & Hderef & Hrest)%bind_Some.
  apply bind_Some in Hrest as ([vs1 self2] & w2 & Hrest & [= <- <- <-]).
  rewrite op_deref_spec in Hderef.
  destruct (iter_deref (m_iterator self) w) as [[r w3]|]; [|done].
  injection Hderef as [= <- <- <-].
  destruct (IH _ _ Hrest) as (-> & <- & Hall). by repeat constructor.
Qed.

(** C10.  Dereferencing the adapter's iterator any number of times in a row
    leaves the index counter and the wrapped position as they were, and
    every result carries the same index, the value of the counter.  In the
    result type the index component is a [const] object, not a reference to
    the counter, so nothing done to a result reaches the counter: the next
    advancement gives the index after the one the results carry. *)
Theorem dereference_is_repeatable `{!Meta.Decltype} n self w vs self' w'
    (Iterator_t Index_t : Meta.cpp_type) decls :
  deref_times n self w = Some (vs, self', w') →
  Meta.indexed_iterator Iterator_t Index_t = Meta.Instantiated decls →
  self' = self
  ∧ length vs = n
  ∧ (∀ v, v ∈ vs → v.1 = m_index self)
  ∧ (∀ next w'', op_incr self' w' = Some (next, w'') →
       m_index next = index_incr (m_index self))
  ∧ Meta.is_reference_v (Meta.add_const_t Index_t) = false
  ∧ ∃ r, Meta.i_dereference_result_type decls =
         Meta.tuple [Meta.const (Meta.remove_const_t Index_t); r].
Proof.
  intros (-> & <- & Hall)%deref_times_spec Hdecls.
  split; [done|]. split; [done|]. split.
  { by apply Forall_forall. }
  split.
  { intros next w''. rewrite op_incr_spec.
    destruct (iter_incr (m_iterator self) w') as [[it w1]|]; [|done].
    by intros [= <- <-]. }
  unfold Meta.indexed_iterator, Meta.indexed_iterator_base, Meta.derive,
    Meta.static_assert, Meta.negation_v in Hdecls.
  destruct (Meta.is_reference_v Iterator_t); [|done]. cbn in Hdecls.
  destruct (Meta.is_reference_v Index_t) eqn:Hidx; [done|].
  injection Hdecls as [= <-]. cbn.
  destruct Index_t; try done; split; try done; by eexists.
Qed.

End traversal.

(** ** The index counter of an unsigned index type *)

Section unsigned_index.
Context {W C Iter Sent Ref : Type}.
Context `{!Iterator W Iter Sent Ref, !Iterable W C Iter Sent}.
Context (bits : N).
Implicit Types (self : indexed_iterator Iter (uint bits)) (w : W).
Local Open Scope Z_scope.

Local Abbreviation modulus := (2 ^ Z.of_N bits).

Lemma modulus_pos : 0 < modulus.
Proof. apply Z.pow_pos_nonneg; lia. Qed.

(** The [k]-th value of the counter is [i + k], modulo [2^bits]. *)
Lemma counting_uint_lookup (i : uint bits) (n k : nat) :
  0 ≤ i < modulus → (k < n)%nat →
  counting i n !! k = Some ((i + Z.of_nat k) mod modulus).
Proof.
  revert i k. induction n as [|n IH]; intros i k Hi Hk; [lia|].
  destruct k as [|k]; cbn [counting lookup list_lookup].
  { by rewrite Z.add_0_r, Z.mod_small. }
  rewrite IH; [|apply Z.mod_pos_bound, modulus_pos|lia].
  cbn [index_incr uint_index]. rewrite Zplus_mod_idemp_l. f_equal. f_equal. lia.
Qed.

(** As long as it stays below [2^bits], the counter counts. *)
Lemma counting_uint_small (i : uint bits) (n : nat) :
  0 ≤ i → i + Z.of_nat n ≤ modulus →
  counting i n = seqZ i (Z.of_nat n).
Proof.
  revert i. induction n as [|n IH]; intros i Hi Hn; [done|].
  rewrite seqZ_cons by lia. cbn [counting]. f_equal.
  replace (Z.pred (Z.of_nat (S n))) with (Z.of_nat n) by lia.
  destruct n as [|n]; [done|].
  cbn [index_incr uint_index]. rewrite Z.mod_small by lia.
  apply IH; lia.
Qed.

(** C1, as amended.  For a finite iterable, one whose own traversal ends
    after [N] elements [rs], and an unsigned index type of [bits] bits with
    [N <= 2^bits], the traversal of the adapter ends too and yields exactly
    [N] pairs: their indices are [0, 1, ..., N-1] in that order, and their
    elements are [rs] in their order.  An empty iterable yields no pair. *)
Theorem enumerate_yields_indexed_elements fuel (c : C) w (rs : list Ref) w' :
  range_for_direct fuel c w = Some (rs, w') →
  Z.of_nat (length rs) ≤ modulus →
  ∃ pairs : list (uint bits * Ref),
    range_for fuel {| m_iterable := c |} w = Some (pairs, w')
    ∧ length pairs = length rs
    ∧ pairs.*1 = seqZ 0 (Z.of_nat (length rs))
    ∧ pairs.*2 = rs
    ∧ (rs = [] → pairs = []).
Proof.
  intros Hdirect Hlen. eexists. split.
  { rewrite range_for_indexed, Hdirect. reflexivity. }
  rewrite zip_counting_fst, zip_counting_snd.
  rewrite length_zip, counting_length, Nat.min_id.
  split; [done|]. split.
  { apply counting_uint_small; cbn; lia. }
  split; [done|]. by intros ->.
Qed.

(** C2, as amended.  The counter is zero at construction; an advancement
    adds one to it, modulo [2^bits]; nothing else changes it.  So the index
    observed at step [k] of a traversal, when [k] elements were produced
    before, is [k] modulo [2^bits]: it is [k] as long as [k < 2^bits]. *)
Theorem index_counts_elements_produced fuel (c : C) w
    (pairs : list (uint bits * Ref)) w' :
  range_for fuel {| m_iterable := c |} w = Some (pairs, w') →
  (∀ (it : Iter) w1,
     indexed_iterator_ctor (Index := uint bits) it w1 =
     Some ({| m_iterator := it; m_index := 0 |}, w1))
  ∧ (∀ self w1 next w2,
       op_incr self w1 = Some (next, w2) →
       m_index next = (m_index self + 1) mod modulus)
  ∧ (∀ self w1 v self' w2,
       op_deref self w1 = Some (v, self', w2) → m_index self' = m_index self)
  ∧ (∀ (k : nat) i r,
       pairs !! k = Some (i, r) → i = Z.of_nat k mod modulus)
  ∧ (∀ (k : nat) i r,
       pairs !! k = Some (i, r) → Z.of_nat k < modulus → i = Z.of_nat k).
Proof.
  intros Hrange. split; [done|]. split.
  { intros self w1 next w2. rewrite op_incr_spec.
    destruct (iter_incr (m_iterator self) w1) as [[it w3]|]; [|done].
    by intros [= <- <-]. }
  split.
  { intros self w1 v self' w2. rewrite op_deref_spec.
    destruct (iter_deref (m_iterator self) w1) as [[r w3]|]; [|done].
    by intros [= <- <- <-]. }
  assert (∀ (k : nat) i r,
    pairs !! k = Some (i, r) → i = Z.of_nat k mod modulus) as Hstep.
  { rewrite range_for_indexed in Hrange.
    destruct (range_for_direct fuel c w) as [[rs w1]|]; [|done].
    injection Hrange as [= <- <-]. intros k i r Hk.
    apply lookup_zip_with_Some in Hk as (i' & r' & [= <- <-] & Hi & Hr).
    apply lookup_lt_Some in Hr.
    rewrite counting_uint_lookup in Hi; [|split; [done|apply modulus_pos]|done].
    by injection Hi as [= <-]. }
  split; [done|]. intros k i r Hk Hlt.
  rewrite (Hstep k i r Hk). apply Z.mod_small. lia.
Qed.

End unsigned_index.

(** ** The traversal of a vector *)

Section vector_facts.
Context {Elem : Type}.
Implicit Types (s : gmap loc (list Elem)) (l : loc) (v : list Elem).

Lemma vector_load s l v (i : nat) :
  s !! l = Some v → vector.load s (l, i) = v !! i.
Proof. unfold vector.load. cbn. by intros ->. Qed.

(** From position [i], the loop yields a reference to each of the elements
    that are left, and ends. *)
Lemma vector_for_loop s l v (i n : nat) :
  s !! l = Some v → i + n = length v →
  for_loop iter_neq iter_incr iter_deref_step (S n) (l, i) (l, length v) s =
  Some ((λ k, (l, k)) <$> seq i n, s).
Proof.
  intros Hl. revert i. induction n as [|n IH]; intros i Hi; rewrite for_loop_S.
  { cbn. rewrite bool_decide_eq_true_2; [done|]. f_equal. lia. }
  cbn [iter_neq vector.iterator ret].
  rewrite bool_decide_eq_false_2 by (intros [= ?]; lia). cbn [negb].
  rewrite iter_deref_step_spec. cbn [iter_deref vector.iterator].
  rewrite (vector_load _ _ _ _ Hl).
  destruct (lookup_lt_is_Some_2 v i) as [x Hx]; [lia|]. rewrite Hx.
  cbn -[for_loop]. rewrite Hl. cbn -[for_loop]. rewrite decide_True by lia.
  rewrite IH by lia. done.
Qed.

(** A vector of [N] elements is a finite iterable of length [N]. *)
Lemma vector_range_for_direct s l v :
  s !! l = Some v →
  range_for_direct (S (length v)) l s =
  Some ((λ k, (l, k)) <$> seq 0 (length v), s).
Proof.
  intros Hl. unfold range_for_direct, bind. cbn. rewrite Hl. cbn.
  rewrite Hl. cbn. by apply vector_for_loop.
Qed.

(** Traversing a vector changes nothing in the store. *)
Lemma vector_for_loop_frame fuel (b e : loc * nat) s rs s' :
  for_loop iter_neq iter_incr iter_deref_step fuel b e s = Some (rs, s') →
  s' = s.
Proof.
  revert b rs. induction fuel as [|fuel IH]; intros b rs; [done|].
  rewrite for_loop_S. cbn [iter_neq vector.iterator ret].
  destruct (negb _); [|by intros [= _ <-]].
  rewrite iter_deref_step_spec. cbn [iter_deref iter_incr vector.iterator].
  destruct (vector.load s b) as [x|]; [|done]. cbn.
  destruct (s !! b.1) as [v|]; [|done]. cbn.
  destruct (decide _); [|done].
  destruct (for_loop _ _ _ fuel _ e s) as [[rs1 s1]|] eqn:Hloop; [|done].
  cbn. intros [= _ <-]. by eapply IH.
Qed.

Lemma vector_range_for_direct_frame fuel l s rs s' :
  range_for_direct fuel l s = Some (rs, s') → s' = s.
Proof.
  unfold range_for_direct.
  intros (b & s1 & Hb & (e & s2 & He & Hloop)%bind_Some)%bind_Some.
  cbn in Hb. destruct (s !! l) as [v|] eqn:Hl; [|done].
  injection Hb as [= <- <-]. cbn in He. rewrite Hl in He.
  injection He as [= <- <-]. by eapply vector_for_loop_frame.
Qed.

(** Enumerating a vector of [N] elements, with an unsigned index type that
    holds [N] values, ends within [N + 1] turns of the loop, with the pairs
    of the indices [0 .. N-1] and the references to its elements in their
    order; the store is as it was. *)
Lemma enumerate_vector (bits : N) s l v :
  s !! l = Some v →
  (Z.of_nat (length v) ≤ 2 ^ Z.of_N bits)%Z →
  range_for (Index := uint bits) (S (length v)) {| m_iterable := l |} s =
  Some (zip (seqZ 0 (Z.of_nat (length v)))
            ((λ k, (l, k)) <$> seq 0 (length v)), s).
Proof.
  intros Hl Hlen. rewrite range_for_indexed, (vector_range_for_direct _ _ v Hl).
  cbn [fmap option_fmap option_map]. rewrite length_fmap, length_seq.
  rewrite counting_uint_small by (cbn; lia). done.
Qed.

End vector_facts.

(** ** What the templates compute *)

Section templates.
Import Meta.
Context `{!Decltype}.

Lemma add_rvalue_reference_is_reference (t : cpp_type) :
  is_reference_v (add_rvalue_reference_t t) = true.
Proof. by destruct t. Qed.

Lemma enumerator_accepted (Iterable Index : cpp_type) :
  is_reference_v Iterable = true → is_reference_v Index = false →
  enumerator Iterable Index =
  Instantiated
    {| e_base := {| eb_iterable_type := Iterable;
                    eb_m_iterable := get_stored_t Iterable |};
       e_iterable_type := Iterable;
       e_index_type := Index |}.
Proof.
  intros HI Hi. unfold enumerator, enumerator_base, derive, static_assert,
    negation_v. by rewrite HI, Hi.
Qed.

Lemma indexed_iterator_accepted (Iterator Index : cpp_type) :
  is_reference_v Iterator = true → is_reference_v Index = false →
  indexed_iterator Iterator Index =
  Instantiated
    {| i_base := {| ib_iterator_type := Iterator;
                    ib_m_iterator := get_stored_t Iterator |};
       i_iterator_type := Iterator;
       i_index_type := Index;
       i_m_index := Index;
       i_dereference_result_type :=
         tuple [add_const_t Index;
                decltype_deref (add_lvalue_reference_t Iterator)] |}.
Proof.
  intros HI Hi. unfold indexed_iterator, indexed_iterator_base, derive,
    static_assert, negation_v. by rewrite HI, Hi.
Qed.

Lemma extents_multiarray_base (Type_ : cpp_type) (I : N) (J : list N) :
  extents (multiarray_base Type_ I J) = I :: J ++ extents Type_.
Proof.
  revert I. induction J as [|I' J IH]; intros I; cbn; [done|].
  by rewrite IH.
Qed.

(** C9.  [multiarray<T, N>] is [std::array<T, N>], and
    [multiarray<T, I, J, Js...>] is
    [std::array<multiarray<T, J, Js...>, I>]: the arrays nest with the first
    extent outermost, so the extents of the nest, read from the outside, are
    [I, J, Js...], followed by those of [T] itself. *)
Theorem multiarray_nests_arrays (Type_ : cpp_type) (N_ I J : N) (Js : list N) :
  multiarray Type_ N_ [] = array Type_ N_
  ∧ multiarray Type_ I (J :: Js) = array (multiarray Type_ J Js) I
  ∧ extents (multiarray Type_ I (J :: Js)) = I :: J :: Js ++ extents Type_.
Proof.
  split; [done|]. split; [done|].
  unfold multiarray. by rewrite extents_multiarray_base.
Qed.

(** C5.  The index type of the adapter that [enumerate] returns, of its
    iterator and of the counter [m_index] is the explicit index type when
    one is supplied; when it is omitted, it is the member [size_type] of the
    iterable's type (references removed) when there is one, and
    [std::size_t] otherwise.  The index component of the produced pairs has
    that type, [const]-qualified. *)
Theorem enumerate_index_type (Iterable : cpp_type) (Index : option cpp_type) :
  let Index_t :=
    match Index, member_size_type (remove_reference_t Iterable) with
    | Some explicit, _ => explicit
    | None, Some size_type => size_type
    | None, None => size_t
    end in
  is_reference_v Index_t = false →
  ∃ decls it_decls elem,
    Meta.enumerate Iterable Index = Instantiated decls
    ∧ e_index_type decls = Index_t
    ∧ begin_result_type (e_iterable_type decls) (e_index_type decls)
      = Instantiated it_decls
    ∧ i_index_type it_decls = Index_t
    ∧ i_m_index it_decls = Index_t
    ∧ i_dereference_result_type it_decls = tuple [add_const_t Index_t; elem]
    ∧ remove_const_t (add_const_t Index_t) = remove_const_t Index_t.
Proof.
  intros Index_t Hidx.
  assert (default (get_index_t Iterable) Index = Index_t) as Hdef.
  { unfold Index_t, get_index_t, get_index. destruct Index; [done|]. cbn.
    by destruct (member_size_type _). }
  eexists _, _, _. unfold Meta.enumerate, enumerate_result_type.
  rewrite Hdef.
  rewrite enumerator_accepted
    by auto using add_rvalue_reference_is_reference.
  split; [done|]. split; [done|]. cbn [e_iterable_type e_index_type].
  unfold begin_result_type.
  rewrite indexed_iterator_accepted
    by auto using add_rvalue_reference_is_reference.
  split; [done|]. split; [done|]. split; [done|]. split; [done|].
  by destruct Index_t.
Qed.

End templates.


(** ** Who owns the wrapped iterable *)

Section ownership.
Context {C Arg Index : Type}.
Context `{!MoveConstructible C, !ListConstructible Arg C}.
Implicit Types (s : gmap loc C) (l : loc) (T : Meta.cpp_type).

Lemma add_rvalue_reference_object T :
  Meta.is_reference_v T = false → Meta.add_rvalue_reference_t T = Meta.rref T.
Proof. by destruct T. Qed.

Lemma get_stored_rvalue T :
  Meta.is_reference_v T = false →
  Meta.get_stored_t (Meta.add_rvalue_reference_t T) = T.
Proof. intros HT. by rewrite add_rvalue_reference_object. Qed.

(** C6.  For an iterable of object type [T] at [l]:
    called with the named iterable (an lvalue), [enumerate] stores a
    reference ([T &]), the adapter denotes the caller's object itself, and
    the store is as it was: nothing is copied.
    Called with a temporary (an rvalue), it stores a [T]: the adapter has
    an object of its own, new in the store, with the value the temporary
    had; the temporary is left moved from, and the adapter's object is
    still there when the temporary is destroyed. *)
Theorem enumerate_ownership T s l (c : C) :
  Meta.is_reference_v T = false →
  s !! l = Some c →
  (Meta.get_stored_t
     (Meta.add_rvalue_reference_t (Meta.deduce T Meta.lvalue)) = Meta.lref T
   ∧ enumerate (Index := Index) (Meta.deduce T Meta.lvalue) l s =
     Some ({| m_iterable := l |}, s))
  ∧ (Meta.get_stored_t
       (Meta.add_rvalue_reference_t (Meta.deduce T Meta.rvalue)) = T
     ∧ ∃ l' s',
         enumerate (Index := Index) (Meta.deduce T Meta.rvalue) l s =
         Some ({| m_iterable := l' |}, s')
         ∧ (l' ∉ dom s)
         ∧ s' !! l' = Some c
         ∧ s' !! l = Some (moved_from c)
         ∧ (delete l s') !! l' = Some c
         ∧ ∀ l'', l'' ≠ l → l'' ≠ l' → s' !! l'' = s !! l'').
Proof.
  intros HT Hl. split; [done|].
  split; [by apply get_stored_rvalue|].
  pose proof (is_fresh (dom s)) as Hfresh.
  assert (fresh (dom s) ≠ l) as Hne.
  { intros Heq. apply Hfresh. rewrite Heq. apply elem_of_dom. by eexists. }
  exists (fresh (dom s)), (<[fresh (dom s) := c]> (<[l := moved_from c]> s)).
  split.
  { unfold enumerate, enumerator_ctor, enumerator_base_ctor, bind, ret.
    cbn [Meta.deduce]. rewrite get_stored_rvalue, HT by done.
    by rewrite Hl. }
  split; [done|]. split; [by rewrite lookup_insert_eq|].
  split; [by rewrite lookup_insert_ne, lookup_insert_eq|].
  split; [by rewrite lookup_delete_ne, lookup_insert_eq|].
  intros l'' ??. by rewrite !lookup_insert_ne.
Qed.

(** C7.  The variadic [enumerate] gives its arguments, as they are, to the
    list initialisation of the stored iterable.  For an object type
    [Iterable] the adapter stores an [Iterable]; whenever it stores an
    object, what it stores is the result of the list initialisation of that
    type from the arguments themselves: when that gives [c], the adapter's
    iterable is a new object [c], the only object the call adds to the
    store; when it has no result, neither has the call.  (When the adapter
    stores a reference, it is bound to the iterable passed, and the store
    is as it was.) *)
Theorem enumerate_variadic_in_place T (parameters : list (parameter Arg)) s :
  let stored := Meta.get_stored_t (Meta.add_rvalue_reference_t T) in
  (Meta.is_reference_v T = false → stored = T)
  ∧ (Meta.is_reference_v stored = false →
       (construct parameters s = None →
          enumerate_variadic (C := C) (Index := Index) T parameters s = None)
       ∧ ∀ (c : C) s1,
           construct parameters s = Some (c, s1) →
           ∃ l',
             enumerate_variadic (Index := Index) T parameters s =
             Some ({| m_iterable := l' |}, <[l' := c]> s1)
             ∧ (l' ∉ dom s1)
             ∧ (<[l' := c]> s1) !! l' = Some c
             ∧ dom (<[l' := c]> s1) = {[l']} ∪ dom s1
             ∧ ∀ l'', l'' ≠ l' → (<[l' := c]> s1) !! l'' = s1 !! l'')
  ∧ (Meta.is_reference_v stored = true →
       ∀ l, enumerate_variadic (C := C) (Arg := Arg) (Index := Index)
              T [object l] s =
            Some ({| m_iterable := l |}, s)).
Proof.
  intros stored.
  unfold enumerate_variadic, enumerator_ctor_variadic,
    enumerator_base_ctor_variadic, bind, ret. fold stored.
  split; [apply get_stored_rvalue|]. split.
  - intros ->. split; [by intros ->|].
    intros c s1 ->. exists (fresh (dom s1)).
    split; [done|]. split; [apply is_fresh|].
    split; [by rewrite lookup_insert_eq|].
    split; [by rewrite dom_insert_L|].
    intros l'' ?. by rewrite lookup_insert_ne.
  - by intros ->.
Qed.

End ownership.

(** ** Examples *)

Section examples.
Import Examples.
Local Open Scope string_scope.
Local Existing Instance vector_decltype.

(** The scenario of the specification: the vector ["a", "b", "c"],
    enumerated with the default index type, gives (0, "a"), (1, "b"),
    (2, "c") and ends; the store is as it was. *)
Example enumerate_abc_values :
  (e <~ enumerate (Index := uint 64)
          (Meta.deduce vector_of_string Meta.lvalue) 1%positive;
   pairs <~ range_for 4 e;
   λ s, Some ((λ p, (p.1, vector.load s p.2)) <$> pairs, s)) abc =
  Some ([(0%Z, Some "a"); (1%Z, Some "b"); (2%Z, Some "c")], abc).
Proof. vm_compute. reflexivity. Qed.

(** An empty vector gives no pair. *)
Example enumerate_empty_vector :
  range_for (Index := uint 64) 1 (named_vector _) ({[ 1%positive := [] ]}
    : gmap loc (list string)) =
  Some ([], {[ 1%positive := [] ]}).
Proof. vm_compute. reflexivity. Qed.

(** A temporary vector, enumerated after the temporary itself is destroyed:
    the adapter's own vector is traversed. *)
Example enumerate_temporary_outlives :
  (e <~ enumerate (Index := uint 64)
          (Meta.deduce vector_of_string Meta.rvalue) 1%positive;
   _ <~ (λ s, Some ((), delete 1%positive s));
   pairs <~ range_for 4 e;
   λ s, Some ((λ p, (p.1, vector.load s p.2)) <$> pairs, s)) abc =
  Some ([(0%Z, Some "a"); (1%Z, Some "b"); (2%Z, Some "c")],
        {[ 2%positive := ["a"; "b"; "c"] ]}).
Proof. vm_compute. reflexivity. Qed.

(** C1 on the vector ["a", "b", "c"], with [std::size_t] indices. *)
Lemma enumerate_yields_indexed_elements_abc :
  range_for_direct 4 1%positive abc = Some (refs 3, abc)
  ∧ (Z.of_nat (length (refs 3)) ≤ 2 ^ Z.of_N 64)%Z
  ∧ ∃ pairs : list (uint 64 * (loc * nat)),
      range_for 4 (named_vector _) abc = Some (pairs, abc)
      ∧ length pairs = 3
      ∧ pairs.*1 = [0; 1; 2]%Z
      ∧ pairs.*2 = refs 3
      ∧ (refs 3 = [] → pairs = []).
Proof.
  assert (range_for_direct 4 1%positive abc = Some (refs 3, abc)) as H1
    by (vm_compute; reflexivity).
  assert (Z.of_nat (length (refs 3)) ≤ 2 ^ Z.of_N 64)%Z as H2
    by (vm_compute; discriminate).
  split; [exact H1|]. split; [exact H2|].
  exact (enumerate_yields_indexed_elements 64 4 1%positive abc (refs 3) abc
           H1 H2).
Defined.

(** C1 as it is stated fails for a narrow index type: with [unsigned char]
    indices (8 bits), a vector of 257 elements yields 257 pairs of which the
    last has index 0, not 256. *)
Lemma enumerate_indices_wrap_around :
  ∃ pairs : list (uint 8 * (loc * nat)),
    range_for_direct 258 1%positive long = Some (refs 257, long)
    ∧ range_for 258 (named_vector _) long = Some (pairs, long)
    ∧ length pairs = 257
    ∧ pairs.*1 !! 256 = Some 0%Z
    ∧ pairs.*1 ≠ seqZ 0 257.
Proof.
  eexists. split; [vm_compute; reflexivity|].
  split; [vm_compute; reflexivity|].
  split; [vm_compute; reflexivity|].
  split; [vm_compute; reflexivity|].
  intros Heq. apply (f_equal (λ l, l !! 256)) in Heq.
  vm_compute in Heq. discriminate Heq.
Qed.

(** C2 on the vector ["a", "b", "c"], with [std::size_t] indices. *)
Lemma index_counts_elements_produced_abc :
  range_for (Index := uint 64) 4 (named_vector _) abc =
    Some ([(0%Z, (1%positive, 0%nat)); (1%Z, (1%positive, 1%nat));
           (2%Z, (1%positive, 2%nat))],
          abc)
  ∧ ∀ (k : nat) (i : uint 64) r,
      [(0%Z, (1%positive, 0%nat)); (1%Z, (1%positive, 1%nat));
           (2%Z, (1%positive, 2%nat))]
        !! k = Some (i, r) →
      (Z.of_nat k < 2 ^ Z.of_N 64)%Z → i = Z.of_nat k.
Proof.
  assert (range_for (Index := uint 64) 4 (named_vector _) abc =
    Some ([(0%Z, (1%positive, 0%nat)); (1%Z, (1%positive, 1%nat));
           (2%Z, (1%positive, 2%nat))],
          abc)) as H1 by (vm_compute; reflexivity).
  split; [exact H1|].
  exact (proj2 (proj2 (proj2 (proj2
    (index_counts_elements_produced 64 4 1%positive abc _ abc H1))))).
Defined.

(** C2 as it is stated fails for a narrow index type: with [unsigned char]
    indices, at the step of a traversal before which 256 elements were
    produced (the one that yields the element at position 256), the index
    observed is 0: the counter went from 255 back to 0. *)
Lemma index_restarts_after_wrap :
  ∃ pairs : list (uint 8 * (loc * nat)),
    range_for 258 (named_vector _) long = Some (pairs, long)
    ∧ pairs !! 255 = Some (255%Z, (1%positive, 255))
    ∧ pairs !! 256 = Some (0%Z, (1%positive, 256))
    ∧ (0 ≠ 256)%Z.
Proof.
  eexists. split; [vm_compute; reflexivity|].
  split; [vm_compute; reflexivity|].
  split; [vm_compute; reflexivity|]. discriminate.
Qed.

(** C3 on the vector ["a", "b", "c"]: at the end position the loop stops,
    whatever the index; one position earlier, an advancement moves the
    position and the index together; the traversal of the adapter ends when
    the position is the vector's end, after three steps. *)
Lemma advancement_in_lockstep_abc :
  (∃ s', for_loop op_neq op_incr op_deref 1
           ({| m_iterator := (1%positive, 3); m_index := 3%Z |}
              : indexed_iterator (loc * nat) (uint 64))
           (1%positive, 3) abc = Some ([], s'))
  ∧ op_incr ({| m_iterator := (1%positive, 1); m_index := 1%Z |}
               : indexed_iterator (loc * nat) (uint 64)) abc =
    Some ({| m_iterator := (1%positive, 2); m_index := 2%Z |}, abc)
  ∧ end_ (named_vector (uint 64)) abc = Some ((1%positive, 3), abc)
  ∧ ∃ pairs : list (uint 64 * (loc * nat)),
      range_for 4 (named_vector (uint 64)) abc = Some (pairs, abc)
      ∧ length pairs = 3.
Proof.
  split.
  { apply (proj1 (proj2 (proj2
      (advancement_in_lockstep
         ({| m_iterator := (1%positive, 3); m_index := 3%Z |}
            : indexed_iterator (loc * nat) (uint 64))
         (1%positive, 3) abc 0 (named_vector (uint 64))
         ({| m_iterator := (1%positive, 3); m_index := 3%Z |}
            : indexed_iterator (loc * nat) (uint 64)))))).
    exists abc. vm_compute. reflexivity. }
  split.
  { rewrite (proj1
      (advancement_in_lockstep
         ({| m_iterator := (1%positive, 1); m_index := 1%Z |}
            : indexed_iterator (loc * nat) (uint 64))
         (1%positive, 3) abc 0 (named_vector (uint 64))
         ({| m_iterator := (1%positive, 1); m_index := 1%Z |}
            : indexed_iterator (loc * nat) (uint 64)))).
    vm_compute. reflexivity. }
  destruct (advancement_in_lockstep
              ({| m_iterator := (1%positive, 1); m_index := 1%Z |}
                 : indexed_iterator (loc * nat) (uint 64))
              (1%positive, 3) abc 4 (named_vector (uint 64))
              ({| m_iterator := (1%positive, 1); m_index := 1%Z |}
                 : indexed_iterator (loc * nat) (uint 64)))
    as (_ & _ & _ & _ & Hend & _ & _ & Hlength & _).
  split.
  { rewrite Hend. vm_compute. reflexivity. }
  destruct (Hlength (refs 3) abc) as (pairs & Hpairs & Hlen).
  { vm_compute. reflexivity. }
  exists pairs. split; [exact Hpairs|]. rewrite Hlen. reflexivity.
Defined.

(** C4 on the vector ["a", "b", "c"]: the elements of the pairs are the
    references the vector's own traversal gives, and the store is as it
    was. *)
Lemma enumeration_frame_abc :
  range_for (Index := uint 64) 4 (named_vector _) abc =
    Some ([(0%Z, (1%positive, 0%nat)); (1%Z, (1%positive, 1%nat));
           (2%Z, (1%positive, 2%nat))], abc)
  ∧ range_for_direct 4 1%positive abc = Some (refs 3, abc).
Proof.
  assert (range_for (Index := uint 64) 4 (named_vector _) abc =
    Some ([(0%Z, (1%positive, 0%nat)); (1%Z, (1%positive, 1%nat));
           (2%Z, (1%positive, 2%nat))], abc)) as H1
    by (vm_compute; reflexivity).
  split; [exact H1|].
  exact (proj2 (proj2 (enumeration_frame (Index := uint 64) 4 1%positive abc))
           _ abc H1).
Defined.

(** C10 on the vector ["a", "b", "c"]: three dereferences at position 1. *)
Lemma dereference_is_repeatable_abc :
  ∃ decls,
    deref_times 3
      ({| m_iterator := (1%positive, 1); m_index := 1%Z |}
         : indexed_iterator (loc * nat) (uint 64)) abc =
      Some (replicate 3 (1%Z, (1%positive, 1)),
            {| m_iterator := (1%positive, 1); m_index := 1%Z |}, abc)
    ∧ Meta.indexed_iterator vector_iterator_type Meta.size_t =
      Meta.Instantiated decls
    ∧ (∀ v : uint 64 * (loc * nat),
         v ∈ replicate 3 (1%Z, (1%positive, 1%nat)) → v.1 = 1%Z)
    ∧ Meta.i_dereference_result_type decls =
      Meta.tuple [Meta.const Meta.size_t;
                  Meta.lref (Meta.named "std::string")].
Proof.
  eexists.
  assert (deref_times 3
      ({| m_iterator := (1%positive, 1); m_index := 1%Z |}
         : indexed_iterator (loc * nat) (uint 64)) abc =
      Some (replicate 3 (1%Z, (1%positive, 1)),
            {| m_iterator := (1%positive, 1); m_index := 1%Z |}, abc)) as H1
    by (vm_compute; reflexivity).
  split; [exact H1|]. split; [vm_compute; reflexivity|].
  destruct (dereference_is_repeatable 3 _ abc _ _ abc
              vector_iterator_type Meta.size_t _ H1 eq_refl)
    as (_ & _ & Hsame & _ & _ & _).
  split; [exact Hsame|]. reflexivity.
Defined.

(** C5 on a named [std::vector<std::string>], the index type omitted. *)
Lemma enumerate_index_type_vector :
  Meta.is_reference_v Meta.size_t = false
  ∧ ∃ decls it_decls elem,
      Meta.enumerate (Meta.deduce vector_of_string Meta.lvalue) None =
        Meta.Instantiated decls
      ∧ Meta.e_index_type decls = Meta.size_t
      ∧ Meta.begin_result_type (Meta.e_iterable_type decls)
          (Meta.e_index_type decls) = Meta.Instantiated it_decls
      ∧ Meta.i_index_type it_decls = Meta.size_t
      ∧ Meta.i_m_index it_decls = Meta.size_t
      ∧ Meta.i_dereference_result_type it_decls =
        Meta.tuple [Meta.add_const_t Meta.size_t; elem]
      ∧ Meta.remove_const_t (Meta.add_const_t Meta.size_t) =
        Meta.remove_const_t Meta.size_t.
Proof.
  split; [reflexivity|].
  exact (enumerate_index_type (Meta.deduce vector_of_string Meta.lvalue) None
           eq_refl).
Defined.

(** C6 on the vector ["a", "b", "c"], named and as a temporary. *)
Lemma enumerate_ownership_abc :
  Meta.is_reference_v vector_of_string = false
  ∧ abc !! 1%positive = Some ["a"; "b"; "c"]
  ∧ enumerate (Index := uint 64)
      (Meta.deduce vector_of_string Meta.lvalue) 1%positive abc =
    Some ({| m_iterable := 1%positive |}, abc)
  ∧ ∃ l' s',
      enumerate (Index := uint 64)
        (Meta.deduce vector_of_string Meta.rvalue) 1%positive abc =
      Some ({| m_iterable := l' |}, s')
      ∧ (delete 1%positive s') !! l' = Some ["a"; "b"; "c"].
Proof.
  assert (Meta.is_reference_v vector_of_string = false) as H1
    by reflexivity.
  assert (abc !! 1%positive = Some ["a"; "b"; "c"]) as H2
    by (vm_compute; reflexivity).
  split; [exact H1|]. split; [exact H2|].
  destruct (enumerate_ownership (Index := uint 64) vector_of_string abc
              1%positive ["a"; "b"; "c"] H1 H2)
    as [[_ Hnamed] [_ (l' & s' & Henum & _ & _ & _ & Halive & _)]].
  split; [exact Hnamed|]. by exists l', s'.
Defined.

(** C7 on [enumerate<std::vector<std::string>>("x", "y")]. *)
Lemma enumerate_variadic_in_place_xy :
  Meta.is_reference_v
    (Meta.get_stored_t (Meta.add_rvalue_reference_t vector_of_string)) = false
  ∧ construct [value "x"; value "y"] (∅ : gmap loc (list string)) =
    Some (["x"; "y"], ∅)
  ∧ ∃ l',
      enumerate_variadic (Index := uint 64) vector_of_string
        [value "x"; value "y"] (∅ : gmap loc (list string)) =
      Some ({| m_iterable := l' |}, {[ l' := ["x"; "y"] ]}).
Proof.
  assert (Meta.is_reference_v
    (Meta.get_stored_t (Meta.add_rvalue_reference_t vector_of_string))
    = false) as H1 by reflexivity.
  assert (construct [value "x"; value "y"] (∅ : gmap loc (list string)) =
    Some (["x"; "y"], ∅)) as H2 by reflexivity.
  split; [exact H1|]. split; [exact H2|].
  destruct (proj1 (proj2 (enumerate_variadic_in_place (Index := uint 64)
                     vector_of_string [value "x"; value "y"] ∅)) H1)
    as [_ Hin].
  destruct (Hin ["x"; "y"] ∅ H2) as (l' & Henum & _).
  exists l'. exact Henum.
Defined.


(** An operation of the index that has no result leaves the operation of
    the adapter without one: with an [int] index at its greatest value an
    advancement is undefined, although that of the vector's iterator has a
    result. *)
Example signed_index_overflows :
  iter_incr (1%positive, 0) abc = Some ((1%positive, 1), abc)
  ∧ @op_incr _ _ _ _ (sint 32) vector.iterator (sint_index 32)
      {| m_iterator := (1%positive, 0); m_index := (2 ^ 31 - 1)%Z |} abc
    = None.
Proof. split; vm_compute; reflexivity. Qed.

End examples.

(** ** The exception specifications *)

Section nothrow_facts.
Import Meta Nothrow.
Context `{!Decltype, !Noexcept}.

Lemma add_rvalue_reference_idemp (t : cpp_type) :
  add_rvalue_reference_t (add_rvalue_reference_t t) = add_rvalue_reference_t t.
Proof. by destruct t. Qed.

Lemma selects_fixed_exact (t : cpp_type) :
  selects_fixed (add_rvalue_reference_t t) [add_rvalue_reference_t t] = true.
Proof.
  unfold selects_fixed. apply bool_decide_eq_true_2, add_rvalue_reference_idemp.
Qed.

(** Deduction from the forwarded arguments gives the parameters back. *)
Lemma forward_deduce_parameters (Parameters : list cpp_type) :
  forallb well_formed Parameters = true →
  add_rvalue_reference_t
    <$> deduce_parameters (add_rvalue_reference_t <$> Parameters)
  = add_rvalue_reference_t <$> Parameters.
Proof.
  unfold deduce_parameters. induction Parameters as [|p ps IH]; [done|].
  cbn. intros [Hp Hps]%andb_prop. rewrite IH by done. f_equal.
  destruct p as [| | | | | |u|u| |]; try done; by destruct u.
Qed.

(** A type is not the adapter made of it, nor the base class of that. *)
Lemma not_the_enumerator (t Index : cpp_type) :
  selects_implicit (class_enumerator (add_rvalue_reference_t t) Index)
    [add_rvalue_reference_t t] = None.
Proof.
  unfold selects_implicit. rewrite add_rvalue_reference_idemp.
  destruct (add_rvalue_reference_t t) as [| | | | | |u|u| |]; try done.
  - destruct u; try done. rewrite bool_decide_eq_false_2; [done|].
    intros Heq. apply (f_equal depth) in Heq. cbn in Heq. lia.
  - rewrite bool_decide_eq_false_2; [done|].
    intros Heq. apply (f_equal depth) in Heq. cbn in Heq. lia.
Qed.

Lemma not_the_enumerator_base (t : cpp_type) :
  selects_implicit (class_enumerator_base (add_rvalue_reference_t t))
    [add_rvalue_reference_t t] = None.
Proof.
  unfold selects_implicit. rewrite add_rvalue_reference_idemp.
  destruct (add_rvalue_reference_t t) as [| | | | | |u|u| |]; try done.
  - destruct u; try done. rewrite bool_decide_eq_false_2; [done|].
    intros Heq. apply (f_equal depth) in Heq. cbn in Heq. lia.
  - rewrite bool_decide_eq_false_2; [done|].
    intros Heq. apply (f_equal depth) in Heq. cbn in Heq. lia.
Qed.

(** The constructor of [enumerator<Iterable, Index>] from an [Iterable]
    itself does not throw when a reference is stored, and is as the move
    constructor of the stored type otherwise. *)
Lemma enumerator_is_constructor_noexcept_spec (Iterable Index : cpp_type) :
  is_reference_v Iterable = true →
  enumerator_is_constructor_noexcept Iterable Index =
  enumerator_base_is_constructor_noexcept Iterable.
Proof.
  intros HI. unfold enumerator_is_constructor_noexcept,
    enumerator_base_is_nothrow_constructible.
  assert (add_rvalue_reference_t Iterable = Iterable) as Heq
    by (by destruct Iterable).
  pose proof (not_the_enumerator_base Iterable) as Himplicit.
  pose proof (selects_fixed_exact Iterable) as Hfixed.
  rewrite Heq in Himplicit, Hfixed |- *. by rewrite Himplicit, Hfixed.
Qed.

(** X1.  [enumerate(iterable)] is declared [noexcept] for every named
    iterable, whatever its type; for a temporary of type [T] it is declared
    [noexcept] exactly when [T] is nothrow move constructible. *)
Theorem enumerate_noexcept (T Index : cpp_type) :
  is_reference_v T = false →
  is_enumerate_noexcept (deduce T lvalue) Index = true
  ∧ is_enumerate_noexcept (deduce T rvalue) Index =
    is_nothrow_move_constructible_v T.
Proof.
  intros HT. unfold is_enumerate_noexcept, enumerator_is_nothrow_constructible.
  rewrite !not_the_enumerator, !selects_fixed_exact.
  rewrite !enumerator_is_constructor_noexcept_spec
    by apply add_rvalue_reference_is_reference.
  unfold enumerator_base_is_constructor_noexcept. cbn [deduce].
  split; [done|]. by rewrite get_stored_rvalue, HT.
Qed.

(** X2.  The variadic [enumerate<T>(parameters...)], for an object type
    [T] and arguments other than the adapter to be made itself (or its base
    class, as one rvalue that is not [const] or one [const] lvalue, for
    which the implicit move or copy constructor is selected), is declared
    [noexcept] exactly when [T] is nothrow constructible from the forwarded
    parameters; that is so whichever declared constructor of the adapter
    the arguments select. *)
Theorem variadic_enumerate_noexcept (T Index : cpp_type)
    (Parameters : list cpp_type) :
  is_reference_v T = false →
  forallb well_formed Parameters = true →
  selects_implicit (class_enumerator (rref T) Index)
    (add_rvalue_reference_t <$> Parameters) = None →
  selects_implicit (class_enumerator_base (rref T))
    (add_rvalue_reference_t <$> Parameters) = None →
  is_variadic_enumerate_noexcept T Index Parameters =
  is_nothrow_constructible_v T (add_rvalue_reference_t <$> Parameters).
Proof.
  intros HT Hwf Hadapter Hbase.
  unfold is_variadic_enumerate_noexcept, enumerator_is_nothrow_constructible.
  rewrite (add_rvalue_reference_object T HT), Hadapter.
  destruct (selects_fixed _ _) eqn:Hsel.
  - rewrite enumerator_is_constructor_noexcept_spec by done.
    unfold enumerator_base_is_constructor_noexcept,
      is_nothrow_move_constructible_v. cbn.
    rewrite HT, (add_rvalue_reference_object T HT). f_equal.
    unfold selects_fixed in Hsel.
    destruct Parameters as [|p [|??]]; try done. cbn in *.
    apply bool_decide_eq_true_1 in Hsel.
    by rewrite add_rvalue_reference_idemp in Hsel; rewrite Hsel.
  - unfold enumerator_is_variadic_constructor_noexcept,
      enumerator_base_is_nothrow_constructible.
    rewrite forward_deduce_parameters, Hbase, Hsel by done.
    unfold enumerator_base_is_variadic_constructor_noexcept.
    by rewrite forward_deduce_parameters.
Qed.

(** X3.  [begin] on the adapter is declared [noexcept] exactly when [begin]
    on the wrapped iterable is, the index type is nothrow default
    constructible and, when the wrapped [begin] returns its iterator by
    value, that iterator is nothrow move constructible. *)
Theorem begin_noexcept (Iterable Index : cpp_type) :
  let B := decltype_begin (add_lvalue_reference_t Iterable) in
  (is_reference_v B = false →
     is_begin_noexcept Iterable Index =
     noexcept_begin (add_lvalue_reference_t Iterable)
     && (is_nothrow_default_constructible_v Index
         && is_nothrow_move_constructible_v B))
  ∧ (is_lvalue_reference_v B = true →
       is_begin_noexcept Iterable Index =
       noexcept_begin (add_lvalue_reference_t Iterable)
       && is_nothrow_default_constructible_v Index).
Proof.
  intros B. unfold is_begin_noexcept, begin_iterator_type,
    indexed_iterator_is_nothrow_constructible,
    indexed_iterator_is_constructor_noexcept,
    indexed_iterator_base_is_nothrow_constructible,
    indexed_iterator_base_is_constructor_noexcept, constructible_from.
  fold B. rewrite !add_rvalue_reference_idemp.
  rewrite !bool_decide_eq_true_2 by done. cbn [orb andb].
  split; intros HB.
  - by rewrite get_stored_rvalue, HB.
  - destruct B; try done. cbn. by rewrite andb_true_r.
Qed.

End nothrow_facts.

Section nothrow_examples.
Import Examples NothrowExamples.
Local Existing Instance vector_decltype.
Local Existing Instance vector_noexcept.

(** X1 on [std::vector<std::string>]. *)
Lemma enumerate_noexcept_vector :
  Meta.is_reference_v vector_of_string = false
  ∧ Nothrow.is_enumerate_noexcept
      (Meta.deduce vector_of_string Meta.lvalue) Meta.size_t = true
  ∧ Nothrow.is_enumerate_noexcept
      (Meta.deduce vector_of_string Meta.rvalue) Meta.size_t = true.
Proof.
  split; [reflexivity|].
  destruct (enumerate_noexcept vector_of_string Meta.size_t eq_refl)
    as [Hl Hr].
  split; [exact Hl|]. rewrite Hr. reflexivity.
Defined.

(** X2 on [enumerate<std::vector<std::string>>(n, s)] with an lvalue [n]
    and an rvalue [s]: construction from elements may throw. *)
Lemma variadic_enumerate_noexcept_vector :
  Meta.is_reference_v vector_of_string = false
  ∧ forallb Nothrow.well_formed
      [Meta.lref Meta.size_t; Meta.named "std::string"] = true
  ∧ Nothrow.selects_implicit
      (Meta.class_enumerator (Meta.rref vector_of_string) Meta.size_t)
      (Meta.add_rvalue_reference_t
         <$> [Meta.lref Meta.size_t; Meta.named "std::string"]) = None
  ∧ Nothrow.selects_implicit
      (Meta.class_enumerator_base (Meta.rref vector_of_string))
      (Meta.add_rvalue_reference_t
         <$> [Meta.lref Meta.size_t; Meta.named "std::string"]) = None
  ∧ Nothrow.is_variadic_enumerate_noexcept vector_of_string Meta.size_t
      [Meta.lref Meta.size_t; Meta.named "std::string"] = false.
Proof.
  split; [reflexivity|]. split; [reflexivity|].
  split; [reflexivity|]. split; [reflexivity|].
  rewrite (variadic_enumerate_noexcept vector_of_string Meta.size_t
             [Meta.lref Meta.size_t; Meta.named "std::string"]
             eq_refl eq_refl eq_refl eq_refl).
  reflexivity.
Defined.

(** What X2 leaves out: [enumerate<std::vector<std::string>>] of an rvalue
    of the adapter itself selects the implicit move constructor, and is
    declared [noexcept] as the vector moves, although a vector cannot be
    made from an adapter. *)
Example variadic_enumerate_noexcept_of_the_adapter :
  Nothrow.is_variadic_enumerate_noexcept vector_of_string Meta.size_t
    [Meta.class_enumerator (Meta.rref vector_of_string) Meta.size_t] = true
  ∧ Nothrow.is_nothrow_constructible_v vector_of_string
      [Meta.rref
         (Meta.class_enumerator (Meta.rref vector_of_string) Meta.size_t)]
    = false.
Proof. split; vm_compute; reflexivity. Qed.

(** X3 on a named [std::vector<std::string>]: [std::begin] is not declared
    [noexcept], so [begin] on the adapter is not. *)
Lemma begin_noexcept_vector :
  Meta.is_reference_v
    (Meta.decltype_begin
       (Meta.add_lvalue_reference_t (Meta.lref vector_of_string))) = false
  ∧ Nothrow.is_begin_noexcept (Meta.lref vector_of_string) Meta.size_t
    = false.
Proof.
  split; [reflexivity|].
  rewrite (proj1 (@begin_noexcept vector_decltype vector_noexcept
                    (Meta.lref vector_of_string) Meta.size_t) eq_refl).
  reflexivity.
Defined.

End nothrow_examples.

(** ** What [enumerate] and [begin] instantiate *)

Section instantiation_facts.
Import Meta.
Context `{!Decltype}.


(** X5.  The adapter's iterator owns the iterator that the wrapped [begin]
    returns by value: its member [m_iterator] is an object of that type.
    It holds a reference only when the wrapped [begin] itself returns an
    lvalue reference (when that returns an rvalue reference, the member is
    an object of the type referred to). *)
Theorem begin_stores_the_iterator (Iterable Index : cpp_type)
    (decls : indexed_iterator_decls) :
  begin_result_type Iterable Index = Instantiated decls →
  let B := decltype_begin (add_lvalue_reference_t Iterable) in
  (is_reference_v B = false →
     i_iterator_type decls = rref B ∧ ib_m_iterator (i_base decls) = B)
  ∧ (is_lvalue_reference_v B = true →
       i_iterator_type decls = B ∧ ib_m_iterator (i_base decls) = B)
  ∧ (is_rvalue_reference_v B = true →
       i_iterator_type decls = B
       ∧ ib_m_iterator (i_base decls) = remove_reference_t B).
Proof.
  unfold begin_result_type, indexed_iterator, indexed_iterator_base, derive,
    static_assert, negation_v.
  rewrite add_rvalue_reference_is_reference. cbn.
  destruct (is_reference_v Index); [done|]. intros [= <-]. cbn.
  split; [|split]; intros HB.
  - by rewrite get_stored_rvalue, add_rvalue_reference_object.
  - by destruct (decltype_begin _).
  - by destruct (decltype_begin _).
Qed.



End instantiation_facts.

Section instantiation_examples.
Import Examples.
Local Existing Instance vector_decltype.

(** X5 on a named [std::vector<std::string>]. *)
Lemma begin_stores_the_iterator_vector :
  ∃ decls,
    Meta.begin_result_type (Meta.lref vector_of_string) Meta.size_t =
      Meta.Instantiated decls
    ∧ Meta.ib_m_iterator (Meta.i_base decls) =
      Meta.named "std::vector<std::string>::iterator".
Proof.
  eexists. split; [reflexivity|].
  exact (proj2 (proj1
    (@begin_stores_the_iterator vector_decltype (Meta.lref vector_of_string)
       Meta.size_t _ eq_refl) eq_refl)).
Defined.

End instantiation_examples.

(** ** Enumerating an adapter *)

Section nested_facts.
Context {W C Iter Sent Ref : Type}.
Context `{!Iterator W Iter Sent Ref, !Iterable W C Iter Sent}.
Local Existing Instance Nested.iterator.
Local Existing Instance Nested.iterable.

(** The loop depends on what its operations do, not on how they are
    written. *)
Lemma for_loop_ext {I S V : Type} (neq : I → S → M W bool)
    (incr : I → M W I) (deref deref' : I → M W (V * I)) fuel b e w :
  (∀ b w, deref b w = deref' b w) →
  for_loop neq incr deref fuel b e w = for_loop neq incr deref' fuel b e w.
Proof.
  intros Hderef. revert b w. induction fuel as [|fuel IH]; intros b w; [done|].
  rewrite !for_loop_S.
  destruct (neq b e w) as [[[] w1]|]; [|done..]. rewrite Hderef.
  destruct (deref' b w1) as [[[v b1] w2]|]; [|done].
  destruct (incr b1 w2) as [[b2 w3]|]; [|done]. by rewrite IH.
Qed.

(** Traversing an adapter as a wrapped iterable is traversing it. *)
Lemma range_for_direct_enumerator {Index : Type} `{!IndexType Index}
    fuel (object : enumerator C Index) w :
  range_for_direct fuel object w = range_for fuel object w.
Proof.
  unfold range_for_direct, range_for. cbn [std_begin std_end Nested.iterable].
  unfold bind at 1 3. destruct (begin object w) as [[b w1]|]; [|done].
  unfold bind. destruct (end_ object w1) as [[e w2]|]; [|done].
  apply for_loop_ext. intros self w3. rewrite iter_deref_step_spec.
  cbn [iter_deref Nested.iterator]. unfold bind, ret.
  rewrite op_deref_spec.
  by destruct (iter_deref (m_iterator self) w3) as [[r w4]|].
Qed.

(** X7.  An adapter can be enumerated itself: for a finite iterable of
    length [N] and unsigned index types that hold [N] values, traversing
    [enumerate(enumerate(c))] yields the pairs [(k, (k, x_k))] for
    [k = 0 .. N-1], where [x_k] are the elements of [c] in their order, and
    leaves the state as the traversal of [c] does. *)
Theorem enumerate_enumerate (bits1 bits2 : N) fuel (c : C) (w : W)
    (rs : list Ref) (w' : W) :
  range_for_direct fuel c w = Some (rs, w') →
  (Z.of_nat (length rs) ≤ 2 ^ Z.of_N bits1)%Z →
  (Z.of_nat (length rs) ≤ 2 ^ Z.of_N bits2)%Z →
  range_for (Index := uint bits2) fuel
    {| m_iterable := ({| m_iterable := c |} : enumerator C (uint bits1)) |} w =
  Some (zip (seqZ 0 (Z.of_nat (length rs)))
            (zip (seqZ 0 (Z.of_nat (length rs))) rs)
          : list (uint bits2 * (uint bits1 * Ref)), w').
Proof.
  intros Hdirect H1 H2.
  rewrite range_for_indexed, range_for_direct_enumerator, range_for_indexed,
    Hdirect.
  cbn [fmap option_fmap option_map].
  rewrite length_zip, counting_length, Nat.min_id.
  by rewrite !counting_uint_small by (cbn; lia).
Qed.

End nested_facts.

(** ** A named iterable is viewed, a temporary is kept *)

Section view_facts.
Context {Elem : Type}.
Implicit Types (s : gmap loc (list Elem)) (l : loc) (v : list Elem).
Implicit Types T : Meta.cpp_type.

Lemma enumerate_named {Index : Type} T s l :
  Meta.is_reference_v T = false →
  enumerate (Index := Index) (Meta.deduce T Meta.lvalue) l s =
  Some ({| m_iterable := l |}, s).
Proof. done. Qed.

Lemma enumerate_temporary {Index : Type} T s l v :
  Meta.is_reference_v T = false →
  s !! l = Some v →
  enumerate (Index := Index) (Meta.deduce T Meta.rvalue) l s =
  Some ({| m_iterable := fresh (dom s) |},
        <[fresh (dom s) := v]> (<[l := []]> s)).
Proof.
  intros HT Hl.
  unfold enumerate, enumerator_ctor, enumerator_base_ctor, bind, ret.
  cbn [Meta.deduce]. rewrite get_stored_rvalue, HT by done. by rewrite Hl.
Qed.

(** X8.  For a vector type that is not [const]: an adapter made from a
    named vector is a view of it: when the vector is assigned to after the
    adapter was made, the traversal enumerates the new contents.  An
    adapter made from a vector that is moved in ([std::move]) has the
    contents the vector had: the vector is left empty, and what is assigned
    to it afterwards does not reach the traversal.  (A [const] vector
    cannot be assigned to, and as an rvalue it is copied, not moved.) *)
Theorem named_is_viewed_temporary_is_kept (bits : N) T s l v v' :
  Meta.is_reference_v T = false →
  Meta.is_const_v T = false →
  s !! l = Some v →
  (Z.of_nat (length v) ≤ 2 ^ Z.of_N bits)%Z →
  (Z.of_nat (length v') ≤ 2 ^ Z.of_N bits)%Z →
  (e <~ enumerate (Index := uint bits) (Meta.deduce T Meta.lvalue) l;
   _ <~ Caller.assign l v';
   range_for (S (length v')) e) s =
  Some (zip (seqZ 0 (Z.of_nat (length v')))
            ((λ k, (l, k)) <$> seq 0 (length v')),
        <[l := v']> s)
  ∧ ∃ l' s',
      (l' ∉ dom s)
      ∧ enumerate (Index := uint bits) (Meta.deduce T Meta.rvalue) l s =
        Some ({| m_iterable := l' |}, s')
      ∧ s' !! l = Some []
      ∧ (e <~ enumerate (Index := uint bits) (Meta.deduce T Meta.rvalue) l;
         _ <~ Caller.assign l v';
         range_for (S (length v)) e) s =
        Some (zip (seqZ 0 (Z.of_nat (length v)))
                  ((λ k, (l', k)) <$> seq 0 (length v)),
              <[l := v']> s')
      ∧ (<[l := v']> s') !! l' = Some v.
Proof.
  intros HT _ Hl Hv Hv'. split.
  - unfold bind at 1. rewrite enumerate_named by done.
    unfold bind at 1, Caller.assign. rewrite Hl. cbn [mbind option_bind].
    apply enumerate_vector; [by rewrite lookup_insert_eq|done].
  - pose proof (is_fresh (dom s)) as Hfresh.
    assert (fresh (dom s) ≠ l) as Hne.
    { intros Heq. apply Hfresh. rewrite Heq. apply elem_of_dom. by eexists. }
    eexists _, _. split; [exact Hfresh|].
    split; [by apply enumerate_temporary|].
    split; [by rewrite lookup_insert_ne, lookup_insert_eq|].
    assert ((<[l := v']> (<[fresh (dom s) := v]> (<[l := []]> s)))
              !! fresh (dom s) = Some v) as Hkept
      by (by rewrite lookup_insert_ne, lookup_insert_eq).
    split; [|done].
    unfold bind at 1. rewrite (enumerate_temporary T s l v) by done.
    unfold bind at 1, Caller.assign.
    rewrite lookup_insert_ne, lookup_insert_eq by done.
    cbn [mbind option_bind]. by apply enumerate_vector.
Qed.

End view_facts.

Section composition_examples.
Import Examples.
Local Open Scope string_scope.
Local Existing Instance Nested.iterator.
Local Existing Instance Nested.iterable.

(** X7 on the vector ["a", "b", "c"], with [unsigned char] indices inside
    and [std::size_t] indices outside. *)
Lemma enumerate_enumerate_abc :
  range_for_direct 4 1%positive abc = Some (refs 3, abc)
  ∧ range_for (Index := uint 64) 4
      {| m_iterable := (named_vector (uint 8)) |} abc =
    Some ([(0%Z, (0%Z, (1%positive, 0%nat)));
           (1%Z, (1%Z, (1%positive, 1%nat)));
           (2%Z, (2%Z, (1%positive, 2%nat)))]
            : list (uint 64 * (uint 8 * (loc * nat))), abc).
Proof.
  assert (range_for_direct 4 1%positive abc = Some (refs 3, abc)) as H1
    by (vm_compute; reflexivity).
  split; [exact H1|].
  refine (enumerate_enumerate 8 64 4 1%positive abc (refs 3) abc H1 _ _);
    vm_compute; discriminate.
Defined.

(** X8 on the vector ["a", "b", "c"], assigned ["x"] after the adapter
    was made. *)
Lemma named_is_viewed_temporary_is_kept_abc :
  (e <~ enumerate (Index := uint 64)
          (Meta.deduce vector_of_string Meta.lvalue) 1%positive;
   _ <~ Caller.assign 1%positive ["x"];
   range_for 2 e) abc =
  Some ([(0%Z, (1%positive, 0%nat))], {[ 1%positive := ["x"] ]}).
Proof.
  refine (proj1 (named_is_viewed_temporary_is_kept 64 vector_of_string abc
                   1%positive ["a"; "b"; "c"] ["x"] eq_refl eq_refl eq_refl
                   _ _));
    vm_compute; discriminate.
Defined.

End composition_examples.

(** ** The preprocessor directives *)

Section preprocessor_facts.
Import Preprocessor.
Implicit Types (env pre : gset string) (d : directive) (name : string).

Lemma run_env st d : st.1 ⊆ (run st d).1.
Proof. unfold run. destruct (condition d st.1); set_solver. Qed.

Lemma foldl_run_env st ds : st.1 ⊆ (foldl run st ds).1.
Proof.
  revert st. induction ds as [|d ds IH]; intros st; [done|]. cbn.
  etrans; [apply run_env|apply IH].
Qed.

(** A name that no directive can define in a state that has [env0] stays
    as it is: not defined by the header, and defined afterwards only if it
    was before. *)
Lemma foldl_run_untouched name env0 st ds :
  env0 ⊆ st.1 →
  Forall (λ d, name ∈ defines d →
               ∀ env, env0 ⊆ env → condition d env = false) ds →
  (name ∈ (foldl run st ds).1 ↔ name ∈ st.1)
  ∧ (name ∈ (foldl run st ds).2 ↔ name ∈ st.2).
Proof.
  intros Henv Hds. revert st Henv.
  induction Hds as [|d ds Hd Hds IH]; intros st Henv; [done|]. cbn.
  destruct (IH (run st d)) as [IH1 IH2]; [etrans; [done|apply run_env]|].
  rewrite IH1, IH2. unfold run.
  destruct (condition d st.1) eqn:Hc; [|done]. cbn.
  assert (name ∉ defines d) as Hnot.
  { intros Hin. by rewrite (Hd Hin st.1 Henv) in Hc. }
  rewrite elem_of_union, elem_of_list_to_set, elem_of_app. tauto.
Qed.

(** The directive does not mention the name, or its condition fails
    because a name of [pre] is defined. *)
Local Ltac untouched :=
  repeat first
    [ apply List.Forall_nil
    | apply List.Forall_cons;
      [ first
          [ intros Hin; exfalso; revert Hin;
            apply (bool_decide_eq_false_1 _); reflexivity
          | intros _ env Henv; cbn; unfold defined;
            repeat match goal with
              | H : ?n ∈ ?pre |- context [bool_decide (?n ∈ env)] =>
                  rewrite (bool_decide_eq_true_2 (n ∈ env))
                    by (by apply Henv)
              end;
            cbn; by rewrite ?andb_false_r ]
      | ] ].

(** X9.  The header never defines a macro of its guarded groups
    ([concat_string], [literal_string], [macro_string], [assume],
    [assert_assume], [likely], [unlikely], [restrict], [debug_log]) that the
    includer has defined already: the includer's definition stays. *)
Theorem header_keeps_the_includers_macros (cplusplus : option N) pre name :
  name ∈ guarded →
  name ∈ pre →
  name ∉ (header cplusplus pre).2.
Proof.
  intros Hguarded Hpre. unfold header.
  destruct (defined "EXTRA_H" pre); [by apply not_elem_of_nil|].
  destruct (foldl_run_untouched name pre (pre, []) (directives cplusplus))
    as [_ Hown]; [done| |rewrite Hown; apply not_elem_of_nil].
  unfold guarded in Hguarded. unfold directives, always.
  repeat (apply elem_of_cons in Hguarded as [->|Hguarded]; [untouched|]).
  by apply not_elem_of_nil in Hguarded.
Qed.

Lemma foldl_run_not_mentioned name st ds :
  Forall (λ d, name ∉ defines d) ds →
  (name ∈ (foldl run st ds).1 ↔ name ∈ st.1)
  ∧ (name ∈ (foldl run st ds).2 ↔ name ∈ st.2).
Proof.
  intros Hds. apply (foldl_run_untouched name ∅); [set_solver|].
  eapply Forall_impl; [exact Hds|]. by intros d Hd Hin.
Qed.

Lemma defined_not_mentioned name st ds :
  Forall (λ d, name ∉ defines d) ds →
  defined name (foldl run st ds).1 = defined name st.1.
Proof.
  intros Hds. apply bool_decide_ext. by apply foldl_run_not_mentioned.
Qed.

(** A name that one directive defines, and no other mentions, is defined
    afterwards iff it was before or the condition of that directive held
    when it was read; the header defined it iff the condition held. *)
Lemma foldl_run_one name pfx d sfx pre :
  Forall (λ d', name ∉ defines d') pfx →
  Forall (λ d', name ∉ defines d') sfx →
  name ∈ defines d →
  let mid := foldl run (pre, []) pfx in
  (name ∈ (foldl run (pre, []) (pfx ++ d :: sfx)).1
     ↔ name ∈ pre ∨ condition d mid.1 = true)
  ∧ (name ∈ (foldl run (pre, []) (pfx ++ d :: sfx)).2
       ↔ condition d mid.1 = true).
Proof.
  intros Hpfx Hsfx Hd mid. rewrite foldl_app. cbn [foldl]. fold mid.
  destruct (foldl_run_not_mentioned name (run mid d) sfx Hsfx) as [-> ->].
  destruct (foldl_run_not_mentioned name (pre, []) pfx Hpfx) as [Henv Hown].
  fold mid in Henv, Hown. cbn in Henv, Hown. unfold run.
  destruct (condition d mid.1); cbn.
  - rewrite elem_of_union, elem_of_list_to_set, elem_of_app. tauto.
  - rewrite Henv, Hown, elem_of_nil. split; [split|split]; try tauto;
      try done; intros [|]; done.
Qed.

Lemma foldl_run_at name ds (k : nat) d pre :
  ds !! k = Some d →
  Forall (λ d', name ∉ defines d') (take k ds) →
  Forall (λ d', name ∉ defines d') (drop (S k) ds) →
  name ∈ defines d →
  (name ∈ (foldl run (pre, []) ds).1
     ↔ name ∈ pre ∨ condition d (foldl run (pre, []) (take k ds)).1 = true)
  ∧ (name ∈ (foldl run (pre, []) ds).2
       ↔ condition d (foldl run (pre, []) (take k ds)).1 = true).
Proof.
  intros Hk Hpfx Hsfx Hd. rewrite <- (take_drop_middle ds k d Hk) at 1 3.
  by apply foldl_run_one.
Qed.

(** No directive of the list mentions the name. *)
Local Ltac not_mentioned :=
  cbn [take drop directives always];
  repeat first
    [ apply List.Forall_nil
    | apply List.Forall_cons;
      [ apply (bool_decide_eq_false_1 _); reflexivity | ] ].

Local Ltac mentioned := apply (bool_decide_eq_true_1 _); reflexivity.

(** X10.  The groups are guarded as a whole: [likely] and [unlikely] are
    defined by the header only when neither is defined, and so are
    [concat_string], [literal_string] and [macro_string].  An includer who
    defines [likely] alone is left without [unlikely], and one who defines
    [concat_string] or [literal_string] alone is left without
    [macro_string], which the header's [debug_log] needs. *)
Theorem groups_are_guarded_as_a_whole (cplusplus : option N) pre :
  "EXTRA_H" ∉ pre →
  ("unlikely" ∈ (header cplusplus pre).1
     ↔ "unlikely" ∈ pre ∨ "likely" ∉ pre)
  ∧ ("likely" ∈ (header cplusplus pre).1
       ↔ "likely" ∈ pre ∨ "unlikely" ∉ pre)
  ∧ ("macro_string" ∈ (header cplusplus pre).1
       ↔ "macro_string" ∈ pre
         ∨ (("concat_string" ∉ pre) ∧ ("literal_string" ∉ pre)))
  ∧ ("concat_string" ∈ (header cplusplus pre).1
       ↔ "concat_string" ∈ pre
         ∨ (("literal_string" ∉ pre) ∧ ("macro_string" ∉ pre)))
  ∧ ("literal_string" ∈ (header cplusplus pre).1
       ↔ "literal_string" ∈ pre
         ∨ (("concat_string" ∉ pre) ∧ ("macro_string" ∉ pre))).
Proof.
  intros Hguard. unfold header, defined.
  rewrite bool_decide_eq_false_2 by done.
  destruct (foldl_run_at "unlikely" (directives cplusplus) 12 _ pre eq_refl)
    as [-> _]; [not_mentioned..|mentioned|].
  destruct (foldl_run_at "likely" (directives cplusplus) 12 _ pre eq_refl)
    as [-> _]; [not_mentioned..|mentioned|].
  destruct (foldl_run_at "macro_string" (directives cplusplus) 9 _ pre eq_refl)
    as [-> _]; [not_mentioned..|mentioned|].
  destruct (foldl_run_at "concat_string" (directives cplusplus) 9 _ pre
              eq_refl) as [-> _]; [not_mentioned..|mentioned|].
  destruct (foldl_run_at "literal_string" (directives cplusplus) 9 _ pre
              eq_refl) as [-> _]; [not_mentioned..|mentioned|].
  cbn [condition]. rewrite !defined_not_mentioned by not_mentioned.
  unfold defined. cbn [fst].
  repeat case_bool_decide; cbn; intuition congruence.
Qed.

(** X11.  Including the header again changes nothing: whatever was defined
    before the first inclusion, after it the second one defines no macro
    and leaves every macro as it is. *)
Theorem header_is_idempotent (cplusplus : option N) pre :
  header cplusplus (header cplusplus pre).1 = ((header cplusplus pre).1, []).
Proof.
  assert ("EXTRA_H" ∈ (header cplusplus pre).1) as Hguard.
  { unfold header, defined. case_bool_decide; [done|].
    destruct (foldl_run_at "EXTRA_H" (directives cplusplus) 0 _ pre eq_refl)
      as [-> _]; [not_mentioned..|mentioned|by right]. }
  unfold header at 1, defined. by rewrite bool_decide_eq_true_2.
Qed.

Local Ltac decide_defined pre :=
  repeat match goal with
    | |- context [bool_decide (?x ∈ pre)] =>
        destruct (decide (x ∈ pre));
        [ rewrite !(bool_decide_eq_true_2 (x ∈ pre)) by done
        | rewrite !(bool_decide_eq_false_2 (x ∈ pre)) by done ]
    end;
  cbn [negb andb orb];
  try first [ apply bool_decide_eq_true_2 | apply bool_decide_eq_false_2 ];
  intuition (try done; try congruence).

Lemma logging_defined (cplusplus : option N) pre :
  defined "XTR_LOGGING"
    (foldl run (pre, []) (take 14 (directives cplusplus))).1 =
  negb (defined "XTR_MINIMAL" pre) || defined "XTR_LOGGING" pre.
Proof.
  destruct (foldl_run_at "XTR_LOGGING" (take 14 (directives cplusplus)) 2 _
              pre eq_refl) as [H _]; [not_mentioned..|mentioned|].
  unfold defined at 1. rewrite (bool_decide_ext _ _ H). clear H.
  cbn [condition]. rewrite !defined_not_mentioned by not_mentioned.
  cbn [fst]. unfold defined. decide_defined pre.
Qed.

(** X12.  Which parts of the header are compiled: [multiarray] and
    [enumerate] only in C++, and there unless [XTR_MINIMAL] is defined and
    the macro of the part ([XTR_MULTIARRAY], [XTR_ENUMERATE]) is not; the
    header defines [debug_log], in C and in C++, unless the includer has
    defined it, or [XTR_MINIMAL] is defined and [XTR_LOGGING] is not. *)
Theorem parts_compiled (cplusplus : option N) pre :
  "EXTRA_H" ∉ pre →
  multiarray_enabled cplusplus pre =
    (negb (defined "XTR_MINIMAL" pre) || defined "XTR_MULTIARRAY" pre)
    && bool_decide (is_Some cplusplus)
  ∧ enumerate_enabled cplusplus pre =
    (negb (defined "XTR_MINIMAL" pre) || defined "XTR_ENUMERATE" pre)
    && bool_decide (is_Some cplusplus)
  ∧ ("debug_log" ∈ (header cplusplus pre).2
       ↔ ("XTR_MINIMAL" ∉ pre ∨ "XTR_LOGGING" ∈ pre) ∧ "debug_log" ∉ pre).
Proof.
  intros Hguard. unfold multiarray_enabled, enumerate_enabled, header.
  rewrite (bool_decide_eq_false_2 ("EXTRA_H" ∈ pre) Hguard
           : defined "EXTRA_H" pre = false).
  cbn [negb andb].
  destruct (foldl_run_at "XTR_MULTIARRAY" (directives cplusplus) 2 _ pre
              eq_refl) as [Hmultiarray _]; [not_mentioned..|mentioned|].
  destruct (foldl_run_at "XTR_ENUMERATE" (directives cplusplus) 2 _ pre
              eq_refl) as [Henumerate _]; [not_mentioned..|mentioned|].
  destruct (foldl_run_at "debug_log" (directives cplusplus) 14 _ pre
              eq_refl) as [_ ->]; [not_mentioned..|mentioned|].
  unfold defined at 1 4.
  rewrite (bool_decide_ext _ _ Hmultiarray), (bool_decide_ext _ _ Henumerate).
  clear Hmultiarray Henumerate. cbn [condition].
  rewrite logging_defined.
  rewrite !defined_not_mentioned by not_mentioned. cbn [fst].
  unfold defined.
  split; [|split].
  - f_equal. decide_defined pre.
  - f_equal. decide_defined pre.
  - destruct (decide ("XTR_MINIMAL" ∈ pre)), (decide ("XTR_LOGGING" ∈ pre)),
      (decide ("debug_log" ∈ pre));
      rewrite ?(bool_decide_eq_true_2 ("XTR_MINIMAL" ∈ pre)),
        ?(bool_decide_eq_false_2 ("XTR_MINIMAL" ∈ pre)),
        ?(bool_decide_eq_true_2 ("XTR_LOGGING" ∈ pre)),
        ?(bool_decide_eq_false_2 ("XTR_LOGGING" ∈ pre)),
        ?(bool_decide_eq_true_2 ("debug_log" ∈ pre)),
        ?(bool_decide_eq_false_2 ("debug_log" ∈ pre)) by done;
      cbn [negb andb orb]; intuition (try done; try congruence).
Qed.

End preprocessor_facts.

Section preprocessor_examples.
Import Preprocessor PreprocessorExamples.

(** X9 on an includer with its own [likely]. *)
Lemma header_keeps_the_includers_macros_likely :
  ("likely" ∈ guarded)
  ∧ ("likely" ∈ own_likely)
  ∧ ("likely" ∉ (header cxx17 own_likely).2).
Proof.
  assert ("likely" ∈ guarded) as Hguarded
    by (by apply (bool_decide_unpack _)).
  assert ("likely" ∈ own_likely) as Hpre
    by (by apply (bool_decide_unpack _)).
  split; [done|]. split; [done|].
  exact (header_keeps_the_includers_macros cxx17 own_likely "likely"
           Hguarded Hpre).
Defined.

(** X10 on the same includer: the header defines neither [likely] nor
    [unlikely], and [unlikely] stays undefined. *)
Lemma groups_are_guarded_as_a_whole_likely :
  ("EXTRA_H" ∉ own_likely)
  ∧ ("unlikely" ∉ (header cxx17 own_likely).1).
Proof.
  assert ("EXTRA_H" ∉ own_likely) as Hguard
    by (by apply (bool_decide_eq_false_1 _)).
  split; [done|].
  intros Hin.
  destruct (proj1 (proj1 (groups_are_guarded_as_a_whole cxx17 own_likely
                            Hguard)) Hin) as [Hpre|Hpre].
  - revert Hpre. by apply (bool_decide_eq_false_1 _).
  - apply Hpre. by apply (bool_decide_unpack _).
Defined.

(** X12 on a minimal build that asks for [enumerate]. *)
Lemma parts_compiled_minimal :
  ("EXTRA_H" ∉ minimal_release)
  ∧ multiarray_enabled cxx17 minimal_release = false
  ∧ enumerate_enabled cxx17 minimal_release = true
  ∧ ("debug_log" ∉ (header cxx17 minimal_release).2).
Proof.
  assert ("EXTRA_H" ∉ minimal_release) as Hguard
    by (by apply (bool_decide_eq_false_1 _)).
  split; [done|].
  destruct (parts_compiled cxx17 minimal_release Hguard)
    as (Hmultiarray & Henumerate & Hlog).
  split; [by rewrite Hmultiarray|]. split; [by rewrite Henumerate|].
  intros Hin. apply Hlog in Hin as [[Hminimal|Hlogging] _].
  - apply Hminimal. by apply (bool_decide_unpack _).
  - revert Hlogging. by apply (bool_decide_eq_false_1 _).
Defined.

End preprocessor_examples.

(** ** The assertion macros *)

Section macro_facts.
Import Preprocessor Macros.
Context {W : Type}.

(** X13.  [assert_assume] never asserts.  With the [assert] that the
    header's own inclusion of [<cassert>] defines, [assert_assume] behaves
    as the [assume] in force, whether [NDEBUG] is defined or not: the
    header puts [assert] in the branch where [NDEBUG] has switched it
    off. *)
Theorem assert_assume_is_assume env (ndebug : bool)
    (assume : expression W → statement W) (e : expression W) (w : W) :
  ndebug = defined "NDEBUG" env →
  assert_assume env (assert ndebug) assume e w = assume e w.
Proof.
  intros ->. unfold assert_assume.
  destruct (defined "NDEBUG" env); reflexivity.
Qed.

End macro_facts.

Section macro_examples.
Import Preprocessor PreprocessorExamples Macros.

(** X13 on a debug build under GCC: a false expression is evaluated once
    and reaches [__builtin_unreachable], no assertion fails. *)
Lemma assert_assume_is_assume_debug :
  false = defined "NDEBUG" (header cxx17 own_likely).1
  ∧ assert_assume (header cxx17 own_likely).1 (assert false)
      (assume (λ _ _, undefined) (λ _, undefined)
         (header cxx17 own_likely).1)
      increment_exceeds_1 0
    = undefined.
Proof.
  split; [reflexivity|].
  rewrite (assert_assume_is_assume (header cxx17 own_likely).1 false _
             increment_exceeds_1 0 eq_refl).
  reflexivity.
Defined.

End macro_examples.
